(** * vidcom: a shallow embedding of [vidcom2.go]

  The program walks the working directory, runs an external encoder on every
  video file, compares the size of the result with the size of the original
  and reports the space saved.  This development embeds the Go code as Rocq
  functions over an explicit world (a directory tree, the console, the log
  file and the list of started subprocesses) and states the properties of
  the specification against that embedding.

  Layout:
  - [Int64]     Go's [int64] arithmetic, with wrap-around;
  - [Float64]   Go's [float64], as the kernel's binary64 floats;
  - [Strings]   the two functions of package [strings] the program calls;
  - [Filepath]  [Ext], [Split], [Clean], [Join] of package [path/filepath];
  - [OS]        the directory tree with [Stat], [Mkdir], [Remove], [Walk];
  - [Vidcom]    the functions of [vidcom2.go] themselves;
  - [Strconv]   [ParseInt] of package [strconv], for [stringToInt64];
  - [Examples]  small worlds and encoders to run the program on;
  - facts about paths, the tree and one job, and then the properties of
    the specification, each under the number of its claim;
  - further properties of the code, numbered X1 and up. *)

From Stdlib Require Import ZArith NArith List String Ascii Bool Lia.
From Stdlib Require Import Floats Uint63.
Import ListNotations.

#[local] Set Warnings "-register-all".

Local Open Scope string_scope.
Local Open Scope Z_scope.

(* ================================================================= *)
(** ** int64 *)

Module Int64.

Definition min_int : Z := - 2 ^ 63.
Definition max_int : Z := 2 ^ 63 - 1.

(** The value an [int64] holds after a result [z] of unbounded arithmetic
    is stored in it (two's complement wrap-around). *)
Definition wrap (z : Z) : Z := (z + 2 ^ 63) mod 2 ^ 64 - 2 ^ 63.

Definition add (a b : Z) : Z := wrap (a + b).
Definition sub (a b : Z) : Z := wrap (a - b).

Definition in_range (z : Z) : Prop := min_int <= z <= max_int.

End Int64.

(* ================================================================= *)
(** ** float64 *)

Module Float64.

(** Go's conversion [float64(x)] of an [int64]: the nearest binary64 value.
    [of_uint63] converts a 63-bit natural number that way; the sign is
    put back afterwards, and [- 2^63], whose magnitude does not fit in 63
    bits, is the exact power of two. *)
Definition of_int64 (z : Z) : float :=
  if z =? Int64.min_int then
    PrimFloat.opp (PrimFloat.mul (PrimFloat.of_uint63 (Uint63.of_Z (2 ^ 62))) 2%float)
  else if z <? 0 then PrimFloat.opp (PrimFloat.of_uint63 (Uint63.of_Z (- z)))
  else PrimFloat.of_uint63 (Uint63.of_Z z).

Definition is_zero (f : float) : bool := PrimFloat.eqb f 0%float.

End Float64.

(* ================================================================= *)
(** ** Package strings *)

Module Strings.

(** Strings are byte strings.  [ToLower] is Go's on ASCII: the letters
    [A]..[Z] are mapped to [a]..[z] and every other byte is kept.  (On
    other text Go lowers runes; no rune outside ASCII lowers to one of the
    letters the program compares with.) *)
Definition lower_byte (c : ascii) : ascii :=
  let n := N_of_ascii c in
  if ((65 <=? n) && (n <=? 90))%N then ascii_of_N (n + 32) else c.

Fixpoint ToLower (s : string) : string :=
  match s with
  | EmptyString => EmptyString
  | String c r => String (lower_byte c) (ToLower r)
  end.

(** [Contains s substr]: [substr] occurs within [s]. *)
Fixpoint Contains (s substr : string) : bool :=
  String.prefix substr s ||
  match s with
  | EmptyString => false
  | String _ r => Contains r substr
  end.

Definition is_upper (c : ascii) : bool :=
  let n := N_of_ascii c in ((65 <=? n) && (n <=? 90))%N.

(** Two bytes are the same letter when they are equal or one is the upper
    case of the other. *)
Definition same_letter (c d : ascii) : bool :=
  Ascii.eqb c d
  || (is_upper c && (N_of_ascii d =? N_of_ascii c + 32)%N)
  || (is_upper d && (N_of_ascii c =? N_of_ascii d + 32)%N).

(** [EqualFold s t]: [s] and [t] are equal when the case of the ASCII
    letters is ignored. *)
Fixpoint EqualFold (s t : string) : bool :=
  match s, t with
  | EmptyString, EmptyString => true
  | String c s', String d t' => same_letter c d && EqualFold s' t'
  | _, _ => false
  end.

(** A byte [d] that lowering a byte gives exactly when that byte is the
    same letter as [d]. *)
Definition lowered (d : ascii) : Prop :=
  forall c, Ascii.eqb (lower_byte c) d = same_letter c d.

(** Every byte of [t] is such a byte. *)
Fixpoint all_lowered (t : string) : Prop :=
  match t with
  | EmptyString => True
  | String d t' => lowered d /\ all_lowered t'
  end.

End Strings.

(* ================================================================= *)
(** ** Package path/filepath (Unix) *)

Module Filepath.

Definition Separator : ascii := "/"%char.

Definition IsPathSeparator (c : ascii) : bool := Ascii.eqb c Separator.

Definition is_empty (s : string) : bool :=
  match s with EmptyString => true | _ => false end.

(** [Split] splits [path] immediately following the final separator into a
    directory and a file name; with no separator the directory is empty. *)
Fixpoint Split (path : string) : string * string :=
  match path with
  | EmptyString => (EmptyString, EmptyString)
  | String c rest =>
      let (dir, file) := Split rest in
      if is_empty dir then
        if IsPathSeparator c then (String c EmptyString, file)
        else (EmptyString, String c file)
      else (String c dir, file)
  end.

(** The suffix of [s] that begins at its final dot; empty without a dot. *)
Fixpoint from_last_dot (s : string) : string :=
  match s with
  | EmptyString => EmptyString
  | String c r =>
      match from_last_dot r with
      | EmptyString => if Ascii.eqb c "."%char then s else EmptyString
      | e => e
      end
  end.

(** [Ext]: the suffix beginning at the final dot in the final element of
    [path]; empty if there is no dot. *)
Definition Ext (path : string) : string := from_last_dot (snd (Split path)).

(** The elements of a path: the pieces between separators. *)
Fixpoint elements (path : string) : list string :=
  match path with
  | EmptyString => [EmptyString]
  | String c rest =>
      if IsPathSeparator c then EmptyString :: elements rest
      else match elements rest with
           | [] => [String c EmptyString]
           | e :: es => String c e :: es
           end
  end.

Definition is_dotdot (s : string) : bool := String.eqb s "..".

(** One step of [Clean], on the elements kept so far (last one first):
    empty elements and [.] are dropped; [..] removes the element before it,
    is dropped at the root, and is kept at the start of a relative path. *)
Definition clean_step (rooted : bool) (kept : list string) (e : string)
  : list string :=
  if is_empty e || String.eqb e "." then kept
  else if is_dotdot e then
    match kept with
    | [] => if rooted then [] else [e]
    | k :: kept' => if is_dotdot k then e :: kept else kept'
    end
  else e :: kept.

Definition clean_elements (rooted : bool) (es : list string) : list string :=
  rev (fold_left (clean_step rooted) es []).

Definition is_rooted (path : string) : bool :=
  match path with
  | String c _ => IsPathSeparator c
  | EmptyString => false
  end.

Definition render (rooted : bool) (es : list string) : string :=
  (if rooted then "/" else "") ++ String.concat "/" es.

(** [Clean]: the shortest path name equivalent to [path] by purely lexical
    processing; the empty result is [.]. *)
Definition Clean (path : string) : string :=
  let rooted := is_rooted path in
  let out := render rooted (clean_elements rooted (elements path)) in
  if is_empty out then "." else out.

(** [Join] of two elements: empty elements are ignored, the others are
    joined by a separator and the result is cleaned; the join of empty
    elements is empty. *)
Definition Join (a b : string) : string :=
  if is_empty a then (if is_empty b then "" else Clean b)
  else if is_empty b then Clean a
  else Clean (a ++ "/" ++ b).

(** A string without a separator. *)
Fixpoint no_sep (s : string) : bool :=
  match s with
  | EmptyString => true
  | String c r => negb (IsPathSeparator c) && no_sep r
  end.

(** An element that names an entry of a directory: not empty, not [.] and
    not [..]. *)
Definition is_name (e : string) : bool :=
  negb (is_empty e || String.eqb e ".") && negb (is_dotdot e).

(** The elements [Clean] keeps, last one first: names on top of [..]s. *)
Definition cleaned (kept : list string) : Prop :=
  exists names dds,
    kept = (names ++ dds)%list /\
    Forall (fun e => is_name e = true) names /\
    Forall (fun e => is_dotdot e = true) dds.

(** A string without a dot and without a separator. *)
Fixpoint plain (s : string) : bool :=
  match s with
  | EmptyString => true
  | String c r =>
      negb (Ascii.eqb c ".") && negb (IsPathSeparator c) && plain r
  end.

(** The path of a list of names from the working directory. *)
Definition of_names (names : list string) : string :=
  match names with
  | [] => "."
  | _ :: _ => String.concat "/" names
  end.

End Filepath.

(* ================================================================= *)
(** ** Package os: the directory tree *)

Module OS.

Inductive errno : Type :=
| ENOENT | ENOTDIR | EACCES | EEXIST | ENOTEMPTY | EINVAL.

(** Go's [error] values the program meets: a [*PathError] of package os,
    an [*ExitError] of os/exec, and any other error with its text. *)
Inductive error : Type :=
| PathError (op path : string) (e : errno)
| ExitError (code : Z)
| OtherError (msg : string).

Definition IsNotExist (err : option error) : bool :=
  match err with
  | Some (PathError _ _ ENOENT) => true
  | _ => false
  end.

(** The tree below the working directory.  A file has a length; a
    directory may be written to or not, and lists its entries by name, in
    the sorted order in which a directory is read. *)
Inductive node : Type :=
| File (size : N)
| Dir (writable : bool) (entries : list (string * node)).

Record FileInfo : Type := { IsDir : bool; Size : Z }.

(** The length of a directory depends on the system; it is reported as 0. *)
Definition info_of (n : node) : FileInfo :=
  match n with
  | File size => {| IsDir := false; Size := Z.of_N size |}
  | Dir _ _ => {| IsDir := true; Size := 0 |}
  end.

Fixpoint find (name : string) (es : list (string * node)) : option node :=
  match es with
  | [] => None
  | (k, n) :: es' => if String.eqb k name then Some n else find name es'
  end.

Fixpoint replace (name : string) (new : node) (es : list (string * node))
  : list (string * node) :=
  match es with
  | [] => []
  | (k, n) :: es' =>
      if String.eqb k name then (k, new) :: es'
      else (k, n) :: replace name new es'
  end.

Fixpoint insert (name : string) (new : node) (es : list (string * node))
  : list (string * node) :=
  match es with
  | [] => [(name, new)]
  | (k, n) :: es' =>
      if String.ltb name k then (name, new) :: es
      else (k, n) :: insert name new es'
  end.

Fixpoint delete (name : string) (es : list (string * node))
  : list (string * node) :=
  match es with
  | [] => []
  | (k, n) :: es' =>
      if String.eqb k name then delete name es'
      else (k, n) :: delete name es'
  end.

(** The node at the end of a list of names, from [n]. *)
Fixpoint lookup (n : node) (names : list string) : errno + node :=
  match names with
  | [] => inr n
  | s :: names' =>
      match n with
      | File _ => inl ENOTDIR
      | Dir _ es =>
          match find s es with
          | Some c => lookup c names'
          | None => inl ENOENT
          end
      end
  end.

(** A new node at the end of [names]: its directory must exist and be
    writable, and the name must be free. *)
Fixpoint create (n : node) (names : list string) (new : node) : errno + node :=
  match names with
  | [] => inl EEXIST
  | s :: names' =>
      match n with
      | File _ => inl ENOTDIR
      | Dir w es =>
          match names' with
          | [] =>
              match find s es with
              | Some _ => inl EEXIST
              | None => if w then inr (Dir w (insert s new es)) else inl EACCES
              end
          | _ :: _ =>
              match find s es with
              | None => inl ENOENT
              | Some c =>
                  match create c names' new with
                  | inl e => inl e
                  | inr c' => inr (Dir w (replace s c' es))
                  end
              end
          end
      end
  end.

Definition removable (n : node) : bool :=
  match n with
  | File _ => true
  | Dir _ [] => true
  | Dir _ (_ :: _) => false
  end.

(** The node at the end of [names] taken away: a file or an empty
    directory, in a writable directory. *)
Fixpoint unlink (n : node) (names : list string) : errno + node :=
  match names with
  | [] => inl EINVAL
  | s :: names' =>
      match n with
      | File _ => inl ENOTDIR
      | Dir w es =>
          match find s es with
          | None => inl ENOENT
          | Some c =>
              match names' with
              | [] =>
                  if negb (removable c) then inl ENOTEMPTY
                  else if w then inr (Dir w (delete s es)) else inl EACCES
              | _ :: _ =>
                  match unlink c names' with
                  | inl e => inl e
                  | inr c' => inr (Dir w (replace s c' es))
                  end
              end
          end
      end
  end.

(** The names a path stands for, from the working directory.  The path is
    read as [Clean] reads it; a path that leaves the working directory (a
    rooted one, or one that begins with [..]) names nothing in the tree. *)
Definition resolve (path : string) : option (list string) :=
  if Filepath.is_rooted path then None
  else
    match Filepath.clean_elements false (Filepath.elements path) with
    | [] => Some []
    | e :: es => if Filepath.is_dotdot e then None else Some (e :: es)
    end.

Definition at_path {A} (op : string) (path : string)
           (f : list string -> errno + A) : error + A :=
  match resolve path with
  | None => inl (PathError op path ENOENT)
  | Some names =>
      match f names with
      | inl e => inl (PathError op path e)
      | inr a => inr a
      end
  end.

(** [os.Stat]. *)
Definition Stat (fs : node) (path : string) : error + FileInfo :=
  at_path "stat" path
          (fun names => match lookup fs names with
                        | inl e => inl e
                        | inr n => inr (info_of n)
                        end).

(** [os.Mkdir path 0755]: the tree afterwards and the error, if any. *)
Definition Mkdir (fs : node) (path : string) : node * option error :=
  match at_path "mkdir" path (fun names => create fs names (Dir true [])) with
  | inl err => (fs, Some err)
  | inr fs' => (fs', None)
  end.

(** [os.Remove]. *)
Definition Remove (fs : node) (path : string) : node * option error :=
  match at_path "remove" path (unlink fs) with
  | inl err => (fs, Some err)
  | inr fs' => (fs', None)
  end.

(** What a subprocess does when it writes a new file of [size] bytes at
    [path]: nothing when the file cannot be created. *)
Definition write_new (fs : node) (path : string) (size : N) : node :=
  match at_path "open" path (fun names => create fs names (File size)) with
  | inl _ => fs
  | inr fs' => fs'
  end.

(** [filepath.Walk]: [fn] is called on [path], then, for a directory, on
    everything below it, entry by entry; the first error [fn] returns ends
    the walk.  [fn]'s captured variables are the state [S].  ([fn] here
    never asks to skip a directory.) *)
Section Walk.
Context {S : Type}.
Variable fn : string -> option FileInfo -> option error -> S -> S * option error.

Fixpoint walk (path : string) (n : node) (s : S) {struct n} : S * option error :=
  match fn path (Some (info_of n)) None s with
  | (s1, Some err) => (s1, Some err)
  | (s1, None) =>
      match n with
      | File _ => (s1, None)
      | Dir _ es =>
          (fix entries (es : list (string * node)) (s : S) : S * option error :=
             match es with
             | [] => (s, None)
             | (name, c) :: es' =>
                 match walk (Filepath.Join path name) c s with
                 | (s2, Some err) => (s2, Some err)
                 | (s2, None) => entries es' s2
                 end
             end) es s1
      end
  end.

Definition Walk (fs : node) (root : string) (s : S) : S * option error :=
  match at_path "lstat" root (lookup fs) with
  | inl err => fn root None (Some err) s
  | inr n => walk root n s
  end.
End Walk.

(** The number of directories of a tree, the top one included. *)
Fixpoint count_dirs (n : node) : Z :=
  match n with
  | File _ => 0
  | Dir _ es =>
      1 + (fix below (es : list (string * node)) : Z :=
             match es with
             | [] => 0
             | (_, c) :: es' => count_dirs c + below es'
             end) es
  end.

(** A tree as a file system keeps it: in every directory the entries have
    names (no separator in them, none of them empty, [.] or [..]) and no two
    entries have the same name. *)
Fixpoint well_formed (n : node) : Prop :=
  match n with
  | File _ => True
  | Dir _ es =>
      NoDup (map fst es) /\
      (fix each (es : list (string * node)) : Prop :=
         match es with
         | [] => True
         | (name, c) :: es' =>
             Filepath.is_name name = true /\
             Filepath.no_sep name = true /\
             well_formed c /\ each es'
         end) es
  end.

(** The loop of [walk] over the entries of a directory, by its name. *)
Definition walk_entries {S : Type}
           (fn : string -> option FileInfo -> option error -> S
                 -> S * option error)
           (path : string) : list (string * node) -> S -> S * option error :=
  fix entries (es : list (string * node)) (s : S) : S * option error :=
    match es with
    | [] => (s, None)
    | (name, c) :: es' =>
        match walk fn (Filepath.Join path name) c s with
        | (s2, Some err) => (s2, Some err)
        | (s2, None) => entries es' s2
        end
    end.

(** The directories below the entries of a directory. *)
Definition count_below (es : list (string * node)) : Z :=
  fold_right (fun e k => count_dirs (snd e) + k) 0 es.

(** The entries of a directory of a well-formed tree, one by one. *)
Definition entry_ok (e : string * node) : Prop :=
  Filepath.is_name (fst e) = true /\ Filepath.no_sep (fst e) = true /\
  well_formed (snd e).

End OS.

(* ================================================================= *)
(** ** Package strconv *)

Module Strconv.

Inductive NumError : Type := ErrSyntax | ErrRange.

Definition maxUint64 : N := 2 ^ 64 - 1.

(** The value of a decimal digit; nothing for any other byte. *)
Definition digit (c : ascii) : option N :=
  let n := N_of_ascii c in
  if ((48 <=? n) && (n <=? 57))%N then Some (n - 48)%N else None.

(** The loop of [ParseUint] in base 10 on 64 bits, from the number [n] read
    so far: a byte that is no digit is a syntax error; a number that does
    not fit in [uint64] is a range error, found before the next byte is
    looked at.  The arithmetic is [uint64]'s. *)
Fixpoint parse_digits (s : string) (n : N) : N * option NumError :=
  match s with
  | EmptyString => (n, None)
  | String c r =>
      match digit c with
      | None => (0%N, Some ErrSyntax)
      | Some d =>
          if (maxUint64 / 10 + 1 <=? n)%N then (maxUint64, Some ErrRange)
          else
            let n := ((n * 10) mod 2 ^ 64)%N in
            let n1 := ((n + d) mod 2 ^ 64)%N in
            if ((n1 <? n) || (maxUint64 <? n1))%N
            then (maxUint64, Some ErrRange)
            else parse_digits r n1
      end
  end.

(** [strconv.ParseUint s 10 64]. *)
Definition ParseUint (s : string) : N * option NumError :=
  match s with
  | EmptyString => (0%N, Some ErrSyntax)
  | _ => parse_digits s 0%N
  end.

(** [strconv.ParseInt s 10 64]: an optional sign, then an unsigned number;
    on a syntax error the value is 0, on a range error the largest value of
    the sign. *)
Definition ParseInt (s : string) : Z * option NumError :=
  match s with
  | EmptyString => (0, Some ErrSyntax)
  | String c r =>
      let neg := Ascii.eqb c "-" in
      let s := if Ascii.eqb c "+" || Ascii.eqb c "-" then r else s in
      let (un, err) := ParseUint s in
      match err with
      | Some ErrSyntax => (0, Some ErrSyntax)
      | _ =>
          let cutoff := (2 ^ 63)%N in
          if negb neg && (cutoff <=? un)%N
          then (Z.of_N cutoff - 1, Some ErrRange)
          else if neg && (cutoff <? un)%N
          then (- Z.of_N cutoff, Some ErrRange)
          else
            let n := Int64.wrap (Z.of_N un) in
            (if neg then Int64.wrap (- n) else n, None)
      end
  end.

(** A string of decimal digits, and the number it writes. *)
Fixpoint all_digits (s : string) : bool :=
  match s with
  | EmptyString => true
  | String c r =>
      match digit c with
      | Some _ => all_digits r
      | None => false
      end
  end.

Fixpoint value_from (n : N) (s : string) : N :=
  match s with
  | EmptyString => n
  | String c r =>
      match digit c with
      | Some d => value_from (n * 10 + d)%N r
      | None => n
      end
  end.

Definition value (s : string) : N := value_from 0%N s.

(** A string without its sign, if it begins with one. *)
Definition unsigned_part (s : string) : string :=
  match s with
  | EmptyString => EmptyString
  | String c r => if Ascii.eqb c "+" || Ascii.eqb c "-" then r else s
  end.

End Strconv.

(* ================================================================= *)
(** ** vidcom2.go *)

Module Vidcom.

Import OS.
Local Open Scope list_scope.

(** What the status logger and [fmt.Println] write, one constructor for each
    message of the program, with the values the message is formatted from. *)
Inductive status_msg : Type :=
| InfoFound (files dirs : Z)
| InfoStarting (filePath : string)
| WarnAlreadyExists (fileName : string)
| WarnOriginalSize (err : error)
| WarnOutputPipe (err : error)
| WarnStarting (err : error)
| WarnReading (err : error)
| WarnWaiting (err : error)
| WarnCompressedSize (err : error)
| WarnLarger (compressedFilePath filePath : string) (mb percent : float)
| WarnSameSize (compressedFilePath filePath : string)
| Compressed (filePath compressedFilePath : string)
             (originalMB compressedMB percent : float)
| Rule
| TotalSaved (mb percent : float).

Inductive line : Type :=
| Status (m : status_msg)
| FFmpeg (text : string)
| ErrorLine (err : error).

(** The world the program runs in: the directory tree, what was written to
    the console and to [compression_report.txt], and the argument lists of
    the subprocesses that were started. *)
Record world : Type := {
  fs : node;
  console : list line;
  logfile : list line;
  started : list (list string)
}.

Definition set_fs (t : node) (w : world) : world :=
  {| fs := t; console := console w; logfile := logfile w; started := started w |}.

(** [statusLogger] writes to the console and to the log file. *)
Definition statusLogger (m : status_msg) (w : world) : world :=
  {| fs := fs w; console := console w ++ [Status m];
     logfile := logfile w ++ [Status m]; started := started w |}.

(** [ffmpegLogger] writes to the log file only. *)
Definition ffmpegLogger (text : string) (w : world) : world :=
  {| fs := fs w; console := console w;
     logfile := logfile w ++ [FFmpeg text]; started := started w |}.

(** [fmt.Println "Error:" err] writes to the console only. *)
Definition printError (err : error) (w : world) : world :=
  {| fs := fs w; console := console w ++ [ErrorLine err];
     logfile := logfile w; started := started w |}.

Definition start (argv : list string) (w : world) : world :=
  {| fs := fs w; console := console w; logfile := logfile w;
     started := started w ++ [argv] |}.

(** What one subprocess does, as far as the program can see: whether its
    stderr pipe can be made and the process started, the lines it writes to
    stderr and the read error that ends them, the error of [Wait] (a
    non-zero exit), and the length of the output file it writes, if any. *)
Record process : Type := {
  pipe_err : option error;
  start_err : option error;
  stderr_lines : list string;
  read_err : option error;
  wait_err : option error;
  output : option N
}.

(** [isVideoFile] checks if a file is a video file based on its extension
    (lines 98-101). *)
Definition isVideoFile (filePath : string) : bool :=
  let fileExtension := Strings.ToLower (Filepath.Ext filePath) in
  String.eqb fileExtension ".mp4" || String.eqb fileExtension ".mov".

(** [isCompressedFile] checks if a file is already compressed based on its
    path (lines 104-106).  No function of the program calls it. *)
Definition isCompressedFile (filePath : string) : bool :=
  Strings.Contains (Strings.ToLower filePath) "completed".

(** The function [findVideoFiles] hands to [filepath.Walk] (lines 68-78);
    its captured variables [files] and [dirCount] are the state. *)
Definition visit (path : string) (info : option FileInfo) (err : option error)
           (s : list string * Z) : (list string * Z) * option error :=
  let '(files, dirCount) := s in
  match err, info with
  | Some e, _ => (s, Some e)
  | None, Some info =>
      if IsDir info then ((files, Int64.add dirCount 1), None)
      else if isVideoFile path then ((files ++ [path], dirCount), None)
      else (s, None)
  | None, None => (s, None)
  end.

(** [findVideoFiles] recursively searches a directory for video files and
    counts subdirectories (lines 65-84). *)
Definition findVideoFiles (dirPath : string) (w : world)
  : world * (list string * Z) :=
  let '((files, dirCount), err) := Walk visit (fs w) dirPath ([], 0) in
  let w := match err with Some e => printError e w | None => w end in
  (w, (files, Int64.sub dirCount 1)).

Definition maxCapacity : Z := 256 * 1024.

(** The loop over [scanner.Scan()] (lines 155-164): every line is logged;
    a line that does not fit the scanner's buffer ends the scan with an
    error, and so does the read error of the pipe. *)
Fixpoint scan (lines : list string) (last : option error) (w : world)
  : world * option error :=
  match lines with
  | [] => (w, last)
  | text :: lines' =>
      if maxCapacity <=? Z.of_nat (String.length text)
      then (w, Some (OtherError "bufio.Scanner: token too long"))
      else scan lines' last (ffmpegLogger text w)
  end.

Definition MB (bytes : Z) : float :=
  PrimFloat.div (PrimFloat.div (Float64.of_int64 bytes) 1024%float) 1024%float.

Definition percent (part whole : Z) : float :=
  PrimFloat.mul
    (PrimFloat.div (Float64.of_int64 part) (Float64.of_int64 whole)) 100%float.

(** The end of [processVideo], from "Handle compression results" (lines
    184-206). *)
Definition handleResults (filePath compressedFilePath : string)
           (originalFileSize compressedFileSize : Z) (w : world)
  : world * (Z * Z) :=
  if compressedFileSize >=? originalFileSize then
    let (fs', _) := Remove (fs w) compressedFilePath in
    let w := set_fs fs' w in
    let w :=
      if compressedFileSize >? originalFileSize then
        statusLogger
          (WarnLarger compressedFilePath filePath
             (MB (Int64.sub compressedFileSize originalFileSize))
             (percent (Int64.sub compressedFileSize originalFileSize)
                      originalFileSize)) w
      else statusLogger (WarnSameSize compressedFilePath filePath) w in
    (w, (originalFileSize, originalFileSize))
  else
    (statusLogger
       (Compressed filePath compressedFilePath
          (MB originalFileSize) (MB compressedFileSize)
          (percent (Int64.sub originalFileSize compressedFileSize)
                   originalFileSize)) w,
     (originalFileSize, compressedFileSize)).

(** The outcome of a job, as its last status message tells it. *)
Inductive decision : Type :=
| Kept | DiscardedLarger | DiscardedEqual | Skipped | Failed.

Definition decision_of (m : status_msg) : option decision :=
  match m with
  | Compressed _ _ _ _ _ => Some Kept
  | WarnLarger _ _ _ _ => Some DiscardedLarger
  | WarnSameSize _ _ => Some DiscardedEqual
  | WarnAlreadyExists _ => Some Skipped
  | WarnOriginalSize _ | WarnOutputPipe _ | WarnStarting _
  | WarnWaiting _ | WarnCompressedSize _ => Some Failed
  | _ => None
  end.

Definition outcome (w : world) : option decision :=
  match rev (console w) with
  | Status m :: _ => decision_of m
  | _ => None
  end.

Section Program.

(** The external encoder: what the subprocess started with the given
    arguments does in the given tree. *)
Variable exec : list string -> node -> process.

(** The arguments of [exec.Command]. *)
Definition command (filePath compressedFilePath : string) : list string :=
  ["ffmpeg"; "-i"; filePath; "-c:v"; "hevc_videotoolbox";
   "-c:a"; "copy"; compressedFilePath].

(** The tree once the subprocess [p] has run. *)
Definition written (p : process) (compressedFilePath : string) (t : node)
  : node :=
  match output p with
  | Some size => write_new t compressedFilePath size
  | None => t
  end.

(** The world once the subprocess [p] was started, its output was read and
    it has ended. *)
Definition ran (p : process) (cmd : list string) (out : string) (w : world)
  : world :=
  let (w, err) := scan (stderr_lines p) (read_err p) (start cmd w) in
  let w := match err with
           | Some err => statusLogger (WarnReading err) w
           | None => w
           end in
  set_fs (written p out (fs w)) w.

(** [processVideo], from "Compress the video using FFmpeg" to the size of
    the compressed file (lines 138-182). *)
Definition compress (filePath compressedFilePath : string)
           (originalFileSize : Z) (w : world) : world * (Z * Z) :=
  let cmd := command filePath compressedFilePath in
  let p := exec cmd (fs w) in
  match pipe_err p with
  | Some err => (statusLogger (WarnOutputPipe err) w, (originalFileSize, 0))
  | None =>
  match start_err p with
  | Some err => (statusLogger (WarnStarting err) w, (originalFileSize, 0))
  | None =>
  let w := start cmd w in
  let (w, err) := scan (stderr_lines p) (read_err p) w in
  let w := match err with
           | Some err => statusLogger (WarnReading err) w
           | None => w
           end in
  let w := set_fs (written p compressedFilePath (fs w)) w in
  match wait_err p with
  | Some err => (statusLogger (WarnWaiting err) w, (originalFileSize, 0))
  | None =>
  match Stat (fs w) compressedFilePath with
  | inl err => (statusLogger (WarnCompressedSize err) w, (originalFileSize, 0))
  | inr compressedFileInfo =>
      let compressedFileSize := Size compressedFileInfo in
      handleResults filePath compressedFilePath
                    originalFileSize compressedFileSize w
  end end end end.

(** The tree after the "Completed" directory was made if it did not exist
    (lines 116-119).  The error of [os.Mkdir] is not looked at. *)
Definition ensureDir (completedDir : string) (t : node) : node :=
  match Stat t completedDir with
  | inl err =>
      if IsNotExist (Some err) then fst (Mkdir t completedDir) else t
  | inr _ => t
  end.

(** The two paths [processVideo] computes from [filePath]. *)
Definition completedDir (filePath : string) : string :=
  Filepath.Join (fst (Filepath.Split filePath)) "Completed".

Definition compressedFilePath (filePath : string) : string :=
  Filepath.Join (completedDir filePath) (snd (Filepath.Split filePath)).

(** The world in which [processVideo] checks whether the compressed file
    already exists. *)
Definition prepared (filePath : string) (w : world) : world :=
  set_fs (ensureDir (completedDir filePath) (fs w))
         (statusLogger (InfoStarting filePath) w).

(** What the subprocess of the job on [filePath] does, if the job gets to
    start it. *)
Definition subprocess (filePath : string) (w : world) : process :=
  exec (command filePath (compressedFilePath filePath))
       (fs (prepared filePath w)).

(** The job on [filePath] runs to an output whose size can be read: the
    compressed file is not there beforehand, the original has the size
    [original] tells, the subprocess is started and ends without an error,
    and afterwards the compressed file has the size [produced] tells. *)
Definition reaches_output (filePath : string) (w : world)
           (original produced : FileInfo) : Prop :=
  (exists err, Stat (fs (prepared filePath w)) (compressedFilePath filePath)
               = inl err) /\
  Stat (fs (prepared filePath w)) filePath = inr original /\
  pipe_err (subprocess filePath w) = None /\
  start_err (subprocess filePath w) = None /\
  wait_err (subprocess filePath w) = None /\
  Stat (written (subprocess filePath w) (compressedFilePath filePath)
                (fs (prepared filePath w)))
       (compressedFilePath filePath) = inr produced.

(** [processVideo] compresses a single video file and handles compression
    results (lines 109-207). *)
Definition processVideo (filePath : string) (w : world) : world * (Z * Z) :=
  let w := statusLogger (InfoStarting filePath) w in
  let (fileDir, fileName) := Filepath.Split filePath in
  let completedDir := Filepath.Join fileDir "Completed" in
  let w := set_fs (ensureDir completedDir (fs w)) w in
  let compressedFilePath := Filepath.Join completedDir fileName in
  match Stat (fs w) compressedFilePath with
  | inr _ => (statusLogger (WarnAlreadyExists fileName) w, (0, 0))
  | inl _ =>
  match Stat (fs w) filePath with
  | inl err => (statusLogger (WarnOriginalSize err) w, (0, 0))
  | inr originalFileInfo =>
      let originalFileSize := Size originalFileInfo in
      compress filePath compressedFilePath originalFileSize w
  end end.

(** The pairs [processVideo] returns for the files of a list, in turn. *)
Fixpoint outcomes (videoFiles : list string) (w : world) : list (Z * Z) :=
  match videoFiles with
  | [] => []
  | filePath :: rest =>
      let (w, sizes) := processVideo filePath w in
      sizes :: outcomes rest w
  end.

(** The sums of the first and of the second sizes of a list of pairs, as
    unbounded integers. *)
Definition sum_original (sizes : list (Z * Z)) : Z :=
  fold_right (fun pair total => fst pair + total) 0 sizes.

Definition sum_compressed (sizes : list (Z * Z)) : Z :=
  fold_right (fun pair total => snd pair + total) 0 sizes.

(** The loop of [processVideos], from the totals so far (lines 89-93). *)
Fixpoint accumulate (videoFiles : list string)
         (totalOriginalSize totalCompressedSize : Z) (w : world)
  : world * (Z * Z) :=
  match videoFiles with
  | [] => (w, (totalOriginalSize, totalCompressedSize))
  | filePath :: rest =>
      let '(w, (originalSize, compressedSize)) := processVideo filePath w in
      accumulate rest (Int64.add totalOriginalSize originalSize)
                 (Int64.add totalCompressedSize compressedSize) w
  end.

(** [processVideos] compresses a list of video files (lines 87-95). *)
Definition processVideos (videoFiles : list string) (w : world)
  : world * (Z * Z) :=
  accumulate videoFiles 0 0 w.

(** The summary at the end of [main], from the two totals (lines 56-61). *)
Definition report (totalOriginalSize totalCompressedSize : Z) (w : world)
  : world :=
  let totalSpaceSaved := Int64.sub totalOriginalSize totalCompressedSize in
  let percentageSaved := percent totalSpaceSaved totalOriginalSize in
  let w := statusLogger Rule w in
  let w := statusLogger (TotalSaved (MB totalSpaceSaved) percentageSaved) w in
  statusLogger Rule w.

(** [main], once the log file is open (lines 48-61).  (The handler of the
    interrupt signal ends the process from another goroutine and is not
    part of the embedding.) *)
Definition main (w : world) : world :=
  let '(w, (videoFiles, dirCount)) := findVideoFiles "." w in
  let w := statusLogger (InfoFound (Z.of_nat (List.length videoFiles)) dirCount) w in
  let '(w, (totalOriginalSize, totalCompressedSize)) :=
    processVideos videoFiles w in
  report totalOriginalSize totalCompressedSize w.

End Program.

(** [handleError] handles errors gracefully (lines 210-214). *)
Definition handleError (err : option error) (w : world) : world :=
  match err with
  | Some e => printError e w
  | None => w
  end.

(** [stringToInt64] converts a string to an int64, handling any errors
    (lines 230-236). *)
Definition stringToInt64 (str : string) : Z :=
  let (i, err) := Strconv.ParseInt str in
  match err with
  | Some _ => 0
  | None => i
  end.

(** The lines of the status logger. *)
Definition is_status (l : line) : bool :=
  match l with
  | Status _ => true
  | _ => false
  end.

(** [w'] continues [w]: its log file is the log file of [w] and more
    lines, and its console is the console of [w] and the status lines
    among these. *)
Definition continues (w w' : world) : Prop :=
  exists more,
    logfile w' = logfile w ++ more /\
    console w' = console w ++ filter is_status more.

(** Every file of the tree [t] is in [t'], with its size. *)
Definition keeps_files (t t' : node) : Prop :=
  forall path info,
    IsDir info = false ->
    Stat t path = inr info -> Stat t' path = inr info.

(** Two subprocesses that differ at most in what they write to stderr and
    in how the reading of it ends. *)
Definition same_but_stderr (p p' : process) : Prop :=
  pipe_err p = pipe_err p' /\ start_err p = start_err p' /\
  wait_err p = wait_err p' /\ output p = output p'.

End Vidcom.

(* ================================================================= *)
(** ** Worlds and encoders to run the program on *)

Module Examples.

Import OS Vidcom.
Local Open Scope list_scope.

(** The world at the start of the program, on a given tree. *)
Definition boot (t : node) : world :=
  {| fs := t; console := []; logfile := []; started := [] |}.

(** An encoder that is started, writes two lines to stderr, writes an
    output of [size] bytes (none for [None]) and ends with [exit]. *)
Definition encoder (size : option N) (exit : option error)
  : list string -> node -> process :=
  fun _ _ =>
    {| pipe_err := None; start_err := None;
       stderr_lines := ["frame=    1 fps=0.0"; "video:1kB audio:0kB"];
       read_err := None; wait_err := exit; output := size |}.

(** No encoder is installed: the subprocess cannot be started. *)
Definition not_installed : list string -> node -> process :=
  fun _ _ =>
    {| pipe_err := None;
       start_err := Some (OtherError "exec: ffmpeg: executable file not found");
       stderr_lines := []; read_err := None; wait_err := None;
       output := None |}.

(** The stderr pipe of the subprocess cannot be made. *)
Definition no_pipe : list string -> node -> process :=
  fun _ _ =>
    {| pipe_err := Some (OtherError "pipe: too many open files");
       start_err := None; stderr_lines := []; read_err := None;
       wait_err := None; output := None |}.

(** One video of 50 bytes. *)
Definition one_video : node := Dir true [("b.MOV", File 50)].

(** One video of 100 bytes and nothing else. *)
Definition one_mp4 : node := Dir true [("a.mp4", File 100)].

(** The same in a directory that cannot be written to. *)
Definition read_only : node := Dir false [("a.mp4", File 100)].

(** A tree after an earlier run: [a.mp4] was compressed into [Completed]. *)
Definition second_run : node :=
  Dir true [("Completed", Dir true [("a.mp4", File 60)]);
            ("a.mp4", File 100)].

(** One video of no bytes at all. *)
Definition empty_video : node := Dir true [("z.mp4", File 0)].

(** Three videos of [2^62] bytes each. *)
Definition huge : node :=
  Dir true [("a.mp4", File (2 ^ 62)); ("b.mp4", File (2 ^ 62));
            ("c.mp4", File (2 ^ 62))].

Definition size_info (size : Z) : FileInfo :=
  {| IsDir := false; Size := size |}.

(** An encoder like [encoder], but whose stderr cannot be read to its
    end. *)
Definition garbled (size : option N) (exit : option error)
  : list string -> node -> process :=
  fun _ _ =>
    {| pipe_err := None; start_err := None;
       stderr_lines := ["frame=    1"];
       read_err := Some (OtherError "read |0: file already closed");
       wait_err := exit; output := size |}.

(** Two directories below the top one, three videos and a text file. *)
Definition holidays : node :=
  Dir true [("2023", Dir true [("beach.MP4", File 300);
                               ("notes.txt", File 1)]);
            ("2024", Dir true [("hike.mov", File 200)]);
            ("intro.mp4", File 100)].

End Examples.

(* ================================================================= *)
(** ** Facts about paths *)

Module PathFacts.

Import Filepath.
Local Open Scope list_scope.

Lemma elements_nonempty p : elements p <> [].
Proof.
  destruct p as [|c r]; simpl; [discriminate|].
  destruct (IsPathSeparator c); [discriminate|].
  destruct (elements r); discriminate.
Qed.

Lemma elements_single p : no_sep p = true -> elements p = [p].
Proof.
  induction p as [|c r IH]; simpl; [reflexivity|].
  destruct (IsPathSeparator c); simpl; [discriminate|].
  intros H. now rewrite (IH H).
Qed.

Lemma elements_app a b :
  elements (a ++ String Separator b)%string = elements a ++ elements b.
Proof.
  induction a as [|c r IH]; simpl; [reflexivity|].
  rewrite IH. destruct (IsPathSeparator c); [reflexivity|].
  pose proof (elements_nonempty r) as Hne.
  destruct (elements r); [congruence|reflexivity].
Qed.

Lemma elements_no_sep p : Forall (fun e => no_sep e = true) (elements p).
Proof.
  induction p as [|c r IH]; simpl; [repeat constructor|].
  destruct (IsPathSeparator c) eqn:Hc; [constructor; auto|].
  destruct (elements r) as [|e es]; [repeat constructor; simpl; now rewrite Hc|].
  inversion IH as [|? ? He Hes]; subst.
  constructor; auto. simpl. now rewrite Hc, He.
Qed.

Lemma elements_concat e es :
  Forall (fun e => no_sep e = true) (e :: es) ->
  elements (String.concat "/" (e :: es)) = e :: es.
Proof.
  revert e. induction es as [|e' es IH]; intros e H.
  - inversion H; subst. now apply elements_single.
  - inversion H as [|? ? He Hes]; subst.
    change (String.concat "/" (e :: e' :: es))
      with (e ++ String Separator (String.concat "/" (e' :: es)))%string.
    now rewrite elements_app, (elements_single _ He), (IH _ Hes).
Qed.

Lemma is_name_not_dotdot e : is_name e = true -> is_dotdot e = false.
Proof.
  unfold is_name. rewrite andb_true_iff. intros [_ H].
  now apply negb_true_iff in H.
Qed.

Lemma clean_step_name rooted kept e :
  is_name e = true -> clean_step rooted kept e = e :: kept.
Proof.
  unfold is_name, clean_step.
  rewrite andb_true_iff, !negb_true_iff. now intros [-> ->].
Qed.

Lemma clean_step_cleaned rooted kept e :
  cleaned kept -> cleaned (clean_step rooted kept e).
Proof.
  intros (names & dds & -> & Hn & Hd). unfold clean_step.
  destruct (is_empty e || String.eqb e ".") eqn:Hskip;
    [now exists names, dds|].
  destruct (is_dotdot e) eqn:Hdd.
  - destruct names as [|k names]; simpl.
    + destruct dds as [|k dds].
      * destruct rooted; [now exists [], []|].
        exists [], [e]. repeat split; auto.
      * inversion Hd; subst. rewrite H1.
        exists [], (e :: k :: dds). repeat split; auto.
    + inversion Hn; subst. rewrite (is_name_not_dotdot _ H1).
      now exists names, dds.
  - exists (e :: names), dds. repeat split; auto.
    constructor; auto. unfold is_name. now rewrite Hskip, Hdd.
Qed.

Lemma fold_clean_cleaned rooted es : forall kept,
  cleaned kept -> cleaned (fold_left (clean_step rooted) es kept).
Proof.
  induction es as [|e es IH]; intros kept H; simpl; auto.
  apply IH, clean_step_cleaned, H.
Qed.

Lemma fold_clean_no_sep rooted es : forall kept,
  Forall (fun e => no_sep e = true) es ->
  Forall (fun e => no_sep e = true) kept ->
  Forall (fun e => no_sep e = true) (fold_left (clean_step rooted) es kept).
Proof.
  induction es as [|e es IH]; intros kept Hes Hk; simpl; auto.
  inversion Hes; subst. apply IH; auto.
  unfold clean_step.
  destruct (is_empty e || String.eqb e "."); auto.
  destruct (is_dotdot e).
  - destruct kept as [|k kept]; [destruct rooted; auto|].
    destruct (is_dotdot k); auto. now inversion Hk.
  - auto.
Qed.

Lemma fold_clean_dotdots dds : forall kept,
  Forall (fun e => is_dotdot e = true) dds ->
  Forall (fun e => is_dotdot e = true) kept ->
  fold_left (clean_step false) dds kept = rev dds ++ kept.
Proof.
  induction dds as [|e dds IH]; intros kept Hd Hk; simpl; auto.
  inversion Hd as [|? ? He Hds]; subst.
  assert (Hstep : clean_step false kept e = e :: kept).
  { unfold clean_step. rewrite He.
    assert (is_empty e || String.eqb e "." = false) as ->.
    { apply String.eqb_eq in He. now subst e. }
    destruct kept as [|k kept]; auto.
    inversion Hk; subst. now rewrite H1. }
  rewrite Hstep, IH by auto. now rewrite <- app_assoc.
Qed.

Lemma fold_clean_names rooted names : forall kept,
  Forall (fun e => is_name e = true) names ->
  fold_left (clean_step rooted) names kept = rev names ++ kept.
Proof.
  induction names as [|e names IH]; intros kept Hn; simpl; auto.
  inversion Hn; subst.
  rewrite clean_step_name, IH by auto. now rewrite <- app_assoc.
Qed.

(** Cleaning what was cleaned changes nothing. *)
Lemma clean_elements_again es :
  clean_elements false (clean_elements false es) = clean_elements false es.
Proof.
  unfold clean_elements.
  destruct (fold_clean_cleaned false es [])
    as (names & dds & Hk & Hn & Hd); [now exists [], []|].
  rewrite Hk at 1. rewrite rev_app_distr, fold_left_app.
  rewrite (fold_clean_dotdots (rev dds) []); [|now apply Forall_rev|constructor].
  rewrite fold_clean_names by now apply Forall_rev.
  rewrite !rev_involutive, app_nil_r. now rewrite <- Hk.
Qed.

End PathFacts.

(* ================================================================= *)
(** ** Facts about the directory tree *)

Module TreeFacts.

Import OS.

Lemma find_insert name new es :
  find name es = None -> find name (insert name new es) = Some new.
Proof.
  induction es as [|[k n] es IH]; simpl.
  - now rewrite String.eqb_refl.
  - destruct (String.eqb k name) eqn:Hk; [discriminate|].
    intros Hnone. destruct (String.ltb name k); simpl.
    + now rewrite String.eqb_refl.
    + rewrite Hk. now apply IH.
Qed.

Lemma find_replace name new es c :
  find name es = Some c -> find name (replace name new es) = Some new.
Proof.
  induction es as [|[k n] es IH]; simpl; [discriminate|].
  destruct (String.eqb k name) eqn:Hk; simpl; rewrite Hk; auto.
Qed.

Lemma find_delete name es : find name (delete name es) = None.
Proof.
  induction es as [|[k n] es IH]; simpl; auto.
  destruct (String.eqb k name) eqn:Hk; simpl; [|rewrite Hk]; auto.
Qed.

(** A node that was created is found where it was created. *)
Lemma lookup_create names : forall n new n',
  create n names new = inr n' -> lookup n' names = inr new.
Proof.
  induction names as [|s names IH]; intros n new n'; simpl; [discriminate|].
  destruct n as [size|w es]; [discriminate|].
  destruct names as [|s' names].
  - destruct (find s es) eqn:Hf; [discriminate|].
    destruct w; [|discriminate].
    intros [= <-]. simpl. now rewrite (find_insert _ _ _ Hf).
  - destruct (find s es) as [c|] eqn:Hf; [|discriminate].
    destruct (create c (s' :: names) new) as [e|c'] eqn:Hc; [discriminate|].
    intros [= <-]. cbn [lookup]. rewrite (find_replace _ _ _ _ Hf).
    exact (IH _ _ _ Hc).
Qed.

Lemma unlink_below w es s s' names :
  unlink (Dir w es) (s :: s' :: names) =
  match find s es with
  | None => inl ENOENT
  | Some c =>
      match unlink c (s' :: names) with
      | inl e => inl e
      | inr c' => inr (Dir w (replace s c' es))
      end
  end.
Proof. reflexivity. Qed.

(** A file that was created can be removed again. *)
Lemma unlink_create names : forall n size n',
  create n names (File size) = inr n' -> exists n'', unlink n' names = inr n''.
Proof.
  induction names as [|s names IH]; intros n size n' H; simpl in H;
    [discriminate|].
  destruct n as [sz|w es]; [discriminate|].
  destruct names as [|s' names].
  - destruct (find s es) eqn:Hf; [discriminate|].
    destruct w; [|discriminate].
    injection H as <-. simpl. rewrite (find_insert _ _ _ Hf). simpl. eauto.
  - destruct (find s es) as [c|] eqn:Hf; [|discriminate].
    destruct (create c (s' :: names) (File size)) as [e|c'] eqn:Hc;
      [discriminate|].
    injection H as <-. rewrite unlink_below, (find_replace _ _ _ _ Hf).
    destruct (IH _ _ _ Hc) as [c'' ->]. eauto.
Qed.

(** A node that was removed is not found any more. *)
Lemma lookup_unlink names : forall n n',
  unlink n names = inr n' -> lookup n' names = inl ENOENT.
Proof.
  induction names as [|s names IH]; intros n n'; simpl; [discriminate|].
  destruct n as [sz|w es]; [discriminate|].
  destruct (find s es) as [c|] eqn:Hf; [|discriminate].
  destruct names as [|s' names].
  - destruct (removable c); simpl; [|discriminate].
    destruct w; [|discriminate].
    intros [= <-]. simpl. now rewrite find_delete.
  - destruct (unlink c (s' :: names)) as [e|c'] eqn:Hc; [discriminate|].
    intros [= <-]. cbn [lookup]. rewrite (find_replace _ _ _ _ Hf).
    exact (IH _ _ Hc).
Qed.

(** The directory of a node that is found is found too. *)
Lemma lookup_parent names : forall n s c,
  lookup n (names ++ [s]) = inr c -> exists d, lookup n names = inr d.
Proof.
  induction names as [|s' names IH]; intros n s c; simpl; [eauto|].
  destruct n as [sz|w es]; [discriminate|].
  destruct (find s' es); [|discriminate]. apply IH.
Qed.

(** [Stat] after a file was written where nothing could be seen before:
    either nothing was written, or the file is there and [Remove] takes it
    away. *)
Lemma written_then_removed t path size e info :
  Stat t path = inl e ->
  Stat (write_new t path size) path = inr info ->
  exists t', Remove (write_new t path size) path = (t', None) /\
             Stat t' path = inl (PathError "stat" path ENOENT) /\
             info = {| IsDir := false; Size := Z.of_N size |}.
Proof.
  unfold Stat, Remove, write_new, at_path.
  destruct (resolve path) as [names|] eqn:Hr; [|discriminate].
  destruct (create t names (File size)) as [e'|t1] eqn:Hc.
  - intros ->. destruct (lookup t names); discriminate.
  - intros _. rewrite (lookup_create _ _ _ _ Hc). intros [= <-].
    destruct (unlink_create _ _ _ _ Hc) as [t2 Hu]. rewrite Hu.
    exists t2. repeat split. now rewrite (lookup_unlink _ _ _ Hu).
Qed.

End TreeFacts.

(* ================================================================= *)
(** ** Facts about the names a path stands for *)

Module ResolveFacts.

Import Filepath OS.
Local Open Scope list_scope.

Lemma cleaned_not_empty kept :
  Filepath.cleaned kept -> Forall (fun e => is_empty e = false) kept.
Proof.
  intros (names & dds & -> & Hn & Hd). apply Forall_app. split.
  - eapply Forall_impl; [|exact Hn]. intros e. now destruct e.
  - eapply Forall_impl; [|exact Hd]. intros e. now destruct e.
Qed.

Lemma clean_elements_facts rooted es :
  Forall (fun e => no_sep e = true) es ->
  Forall (fun e => no_sep e = true /\ is_empty e = false)
         (clean_elements rooted es).
Proof.
  intros Hes. unfold clean_elements. apply Forall_rev.
  apply Forall_and.
  - apply PathFacts.fold_clean_no_sep; auto.
  - apply cleaned_not_empty, PathFacts.fold_clean_cleaned. now exists [], [].
Qed.

Lemma Clean_not_empty path : is_empty (Clean path) = false.
Proof.
  unfold Clean. destruct (is_empty (render _ _)) eqn:H; auto.
Qed.

Lemma Join_not_empty a b : is_empty b = false -> is_empty (Join a b) = false.
Proof.
  intros Hb. unfold Join. rewrite Hb.
  destruct (is_empty a); apply Clean_not_empty.
Qed.

Lemma Split_file_no_sep path : no_sep (snd (Split path)) = true.
Proof.
  induction path as [|c rest IH]; simpl; [reflexivity|].
  destruct (Split rest) as [dir file]. simpl in IH.
  destruct (is_empty dir); [|exact IH].
  destruct (IsPathSeparator c) eqn:Hc; simpl; [exact IH|].
  now rewrite Hc, IH.
Qed.

(** A path and its [Clean] stand for the same names. *)
Lemma resolve_Clean path : resolve (Clean path) = resolve path.
Proof.
  unfold Clean, resolve.
  pose proof (clean_elements_facts (is_rooted path) (elements path)
                                   (PathFacts.elements_no_sep path)) as Hf.
  destruct (is_rooted path) eqn:Hr; [reflexivity|].
  unfold render. cbn [String.append].
  destruct (clean_elements false (elements path)) as [|e es] eqn:Hc;
    [reflexivity|].
  assert (Hsep : Forall (fun e => no_sep e = true) (e :: es))
    by (eapply Forall_impl; [|exact Hf]; now intros ? [? ?]).
  inversion Hf as [|? ? [He Hne] _]; subst.
  destruct e as [|c e]; [discriminate|].
  assert (Hout : exists r, String.concat "/" (String c e :: es) = String c r)
    by (destruct es; simpl; eauto).
  destruct Hout as [r Hout].
  pose proof (PathFacts.elements_concat _ _ Hsep) as Hel.
  rewrite Hout in *. cbn [is_empty is_rooted].
  simpl in He. destruct (IsPathSeparator c); [discriminate|].
  rewrite Hel, <- Hc, PathFacts.clean_elements_again, Hc. reflexivity.
Qed.

(** The names of an entry [name] of the directory [dir]. *)
Lemma resolve_entry dir name :
  is_empty dir = false -> is_name name = true -> no_sep name = true ->
  resolve (dir ++ String Separator name)%string =
  match resolve dir with
  | Some names => Some (names ++ [name])
  | None => None
  end.
Proof.
  intros Hd Hn Hs. unfold resolve.
  assert (is_rooted (dir ++ String Separator name)%string = is_rooted dir)
    as -> by (destruct dir; [discriminate|reflexivity]).
  destruct (is_rooted dir); [reflexivity|].
  rewrite PathFacts.elements_app, (PathFacts.elements_single _ Hs).
  unfold clean_elements. rewrite fold_left_app. cbn [fold_left].
  rewrite (PathFacts.clean_step_name _ _ _ Hn). cbn [rev].
  destruct (rev _) as [|e es]; cbn [app].
  - now rewrite (PathFacts.is_name_not_dotdot _ Hn).
  - destruct (is_dotdot e); reflexivity.
Qed.

Lemma resolve_Join dir name :
  is_empty dir = false -> is_name name = true -> no_sep name = true ->
  resolve (Join dir name) =
  match resolve dir with
  | Some names => Some (names ++ [name])
  | None => None
  end.
Proof.
  intros Hd Hn Hs. unfold Join. rewrite Hd.
  assert (is_empty name = false) as -> by (now destruct name).
  rewrite resolve_Clean. now apply resolve_entry.
Qed.

(** In a tree where [Join dir name] is found, [dir] is found. *)
Lemma Stat_Join_parent t dir name info :
  is_empty dir = false -> is_name name = true -> no_sep name = true ->
  Stat t (Join dir name) = inr info ->
  exists info', Stat t dir = inr info'.
Proof.
  intros Hd Hn Hs. unfold Stat, at_path.
  rewrite (resolve_Join _ _ Hd Hn Hs).
  destruct (resolve dir) as [names|]; [|discriminate].
  destruct (lookup t (names ++ [name])) as [e|n] eqn:Hl; [discriminate|].
  destruct (TreeFacts.lookup_parent _ _ _ _ Hl) as [d ->]. eauto.
Qed.

End ResolveFacts.

(* ================================================================= *)
(** ** Facts about one job *)

Module JobFacts.

Import OS Vidcom.
Local Open Scope list_scope.

Lemma Int64_sub_add_same a b o :
  Int64.sub (Int64.add a o) (Int64.add b o) = Int64.sub a b.
Proof.
  unfold Int64.sub, Int64.add, Int64.wrap. f_equal.
  replace ((a + o + 2 ^ 63) mod 2 ^ 64 - 2 ^ 63
           - ((b + o + 2 ^ 63) mod 2 ^ 64 - 2 ^ 63) + 2 ^ 63)
    with ((a + o + 2 ^ 63) mod 2 ^ 64 - (b + o + 2 ^ 63) mod 2 ^ 64 + 2 ^ 63)
    by lia.
  rewrite <- Zplus_mod_idemp_l, <- Zminus_mod, Zplus_mod_idemp_l.
  f_equal. lia.
Qed.

Lemma Int64_wrap_in_range z : Int64.in_range z -> Int64.wrap z = z.
Proof.
  unfold Int64.in_range, Int64.min_int, Int64.max_int, Int64.wrap. intros H.
  rewrite Z.mod_small; lia.
Qed.

Lemma Stat_size_nonneg t path info : Stat t path = inr info -> 0 <= Size info.
Proof.
  unfold Stat, at_path. destruct (resolve path); [|discriminate].
  destruct (lookup t l) as [e|n]; [discriminate|].
  intros [= <-]. destruct n; simpl; lia.
Qed.

(** Reading the subprocess's output touches the log file only. *)
Lemma scan_frame lines last : forall w,
  fs (fst (scan lines last w)) = fs w /\
  console (fst (scan lines last w)) = console w /\
  started (fst (scan lines last w)) = started w.
Proof.
  induction lines as [|text lines IH]; intros w; simpl; auto.
  destruct (maxCapacity <=? _); simpl; auto.
  destruct (IH (ffmpegLogger text w)) as (-> & -> & ->). auto.
Qed.

Lemma ran_fs p cmd out w : fs (ran p cmd out w) = written p out (fs w).
Proof.
  unfold ran. pose proof (scan_frame (stderr_lines p) (read_err p) (start cmd w)) as (Hfs & _).
  destruct (scan _ _ _) as [w2 [err|]]; simpl in *; now rewrite Hfs.
Qed.

Lemma ran_started p cmd out w :
  started (ran p cmd out w) = started w ++ [cmd].
Proof.
  unfold ran. pose proof (scan_frame (stderr_lines p) (read_err p) (start cmd w)) as (_ & _ & Hs).
  destruct (scan _ _ _) as [w2 [err|]]; simpl in *; now rewrite Hs.
Qed.

Lemma ran_console p cmd out w :
  console (ran p cmd out w) =
  console w ++
  match snd (scan (stderr_lines p) (read_err p) (start cmd w)) with
  | Some err => [Status (WarnReading err)]
  | None => []
  end.
Proof.
  unfold ran. pose proof (scan_frame (stderr_lines p) (read_err p) (start cmd w)) as (_ & Hc & _).
  destruct (scan _ _ _) as [w2 [err|]]; simpl in *; rewrite Hc;
    [reflexivity | now rewrite app_nil_r].
Qed.

Section Job.

Variable exec : list string -> node -> process.

Lemma compress_cases filePath out o w :
  compress exec filePath out o w =
  let cmd := command filePath out in
  let p := exec cmd (fs w) in
  match pipe_err p with
  | Some err => (statusLogger (WarnOutputPipe err) w, (o, 0))
  | None =>
  match start_err p with
  | Some err => (statusLogger (WarnStarting err) w, (o, 0))
  | None =>
  match wait_err p with
  | Some err => (statusLogger (WarnWaiting err) (ran p cmd out w), (o, 0))
  | None =>
  match Stat (written p out (fs w)) out with
  | inl err => (statusLogger (WarnCompressedSize err) (ran p cmd out w), (o, 0))
  | inr info => handleResults filePath out o (Size info) (ran p cmd out w)
  end end end end.
Proof.
  unfold compress. cbv zeta.
  destruct (pipe_err _); [reflexivity|].
  destruct (start_err _); [reflexivity|].
  rewrite <- (ran_fs _ (command filePath out) out w). unfold ran.
  destruct (scan _ _ _) as [w2 err]. reflexivity.
Qed.

Lemma processVideo_cases filePath w :
  processVideo exec filePath w =
  let w1 := prepared filePath w in
  let out := compressedFilePath filePath in
  match Stat (fs w1) out with
  | inr _ =>
      (statusLogger (WarnAlreadyExists (snd (Filepath.Split filePath))) w1,
       (0, 0))
  | inl _ =>
      match Stat (fs w1) filePath with
      | inl err => (statusLogger (WarnOriginalSize err) w1, (0, 0))
      | inr info => compress exec filePath out (Size info) w1
      end
  end.
Proof.
  unfold processVideo, prepared, compressedFilePath, completedDir.
  destruct (Filepath.Split filePath); reflexivity.
Qed.

Lemma outcome_statusLogger m w : outcome (statusLogger m w) = decision_of m.
Proof. unfold outcome. simpl. now rewrite rev_unit. Qed.

End Job.

End JobFacts.

(* ================================================================= *)
(** ** The outcome of one job *)

Import OS Vidcom.
Local Open Scope list_scope.

Section Outcome.

Variable exec : list string -> node -> process.

(** A job that reaches its output ends in [handleResults], in a world where
    the compressed file is there and can be removed. *)
Lemma reaches_handleResults filePath w original produced :
  reaches_output exec filePath w original produced ->
  exists w2 t,
    Stat (fs w2) (compressedFilePath filePath) = inr produced /\
    Remove (fs w2) (compressedFilePath filePath) = (t, None) /\
    Stat t (compressedFilePath filePath) =
      inl (PathError "stat" (compressedFilePath filePath) ENOENT) /\
    processVideo exec filePath w =
    handleResults filePath (compressedFilePath filePath)
                  (Size original) (Size produced) w2.
Proof.
  intros ([err Hout] & Horig & Hpipe & Hstart & Hwait & Hstat).
  unfold subprocess in *.
  rewrite JobFacts.processVideo_cases. cbv zeta.
  rewrite Hout, Horig, JobFacts.compress_cases. cbv zeta.
  rewrite Hpipe, Hstart, Hwait, Hstat.
  set (p := exec _ _) in *.
  assert (Hfs : forall cmd, fs (ran p cmd (compressedFilePath filePath) (prepared filePath w)) =
                            written p (compressedFilePath filePath)
                                    (fs (prepared filePath w)))
    by (intros; apply JobFacts.ran_fs).
  unfold written in Hstat, Hfs.
  destruct (output p) as [size|] eqn:Hsize; [|congruence].
  destruct (TreeFacts.written_then_removed _ _ _ _ _ Hout Hstat)
    as (t & Hrm & Hgone & _).
  eexists; exists t. rewrite Hfs. repeat split; eassumption.
Qed.

Lemma handleResults_keep filePath out o c w :
  c < o ->
  exists m, decision_of m = Some Kept /\
            handleResults filePath out o c w = (statusLogger m w, (o, c)).
Proof.
  intros H. unfold handleResults.
  destruct (c >=? o) eqn:Hge; [rewrite Z.geb_le in Hge; lia|].
  eexists; split; [|reflexivity]. reflexivity.
Qed.

Lemma handleResults_discard filePath out o c w :
  c >= o ->
  exists m,
    decision_of m =
      Some (if c >? o then DiscardedLarger else DiscardedEqual) /\
    handleResults filePath out o c w =
    (statusLogger m (set_fs (fst (Remove (fs w) out)) w), (o, o)).
Proof.
  intros H. unfold handleResults.
  destruct (c >=? o) eqn:Hge; [|rewrite Z.geb_leb, Z.leb_gt in Hge; lia].
  destruct (Remove (fs w) out) as [t err]. simpl.
  destruct (c >? o); eexists; (split; [|reflexivity]); reflexivity.
Qed.

End Outcome.

(* ================================================================= *)
(** ** Properties of one job *)

Section JobClaims.

Variable exec : list string -> node -> process.

(** C3.  For a job that runs to an output whose size [p] can be read, with
    an original of size [o]: the outcome is "kept" iff [p < o] and a discard
    iff [p >= o], the discard being "larger" iff [p > o] and "same size" iff
    [p = o]; and after a discard the compressed file is not on disk. *)
Theorem keep_iff_smaller filePath w original produced :
  reaches_output exec filePath w original produced ->
  let w' := fst (processVideo exec filePath w) in
  (outcome w' = Some Kept <-> Size produced < Size original) /\
  (outcome w' = Some DiscardedLarger \/ outcome w' = Some DiscardedEqual
   <-> Size produced >= Size original) /\
  (outcome w' = Some DiscardedLarger <-> Size produced > Size original) /\
  (outcome w' = Some DiscardedEqual <-> Size produced = Size original) /\
  (Size produced >= Size original ->
   Stat (fs w') (compressedFilePath filePath) =
   inl (PathError "stat" (compressedFilePath filePath) ENOENT)).
Proof.
  intros H w'. subst w'.
  destruct (reaches_handleResults exec _ _ _ _ H)
    as (w2 & t & Hthere & Hrm & Hgone & ->).
  destruct (Z_lt_ge_dec (Size produced) (Size original)) as [Hlt|Hge].
  - destruct (handleResults_keep filePath (compressedFilePath filePath)
                                 _ _ w2 Hlt) as (m & Hm & ->).
    cbn [fst]. rewrite JobFacts.outcome_statusLogger, Hm.
    repeat split; intros; try lia; try discriminate.
    destruct H0; discriminate.
  - destruct (handleResults_discard filePath (compressedFilePath filePath)
                                    _ _ w2 Hge) as (m & Hm & ->).
    cbn [fst]. rewrite JobFacts.outcome_statusLogger, Hm, Hrm.
    destruct (Size produced >? Size original) eqn:Hgt.
    + rewrite Z.gtb_ltb, Z.ltb_lt in Hgt.
      repeat split; intros; try lia; try discriminate; auto.
    + rewrite Z.gtb_ltb, Z.ltb_ge in Hgt.
      repeat split; intros; try lia; try discriminate; auto.
Qed.

(** C6.  A job whose output is discarded returns the original size twice,
    and leaves the space saved so far, whatever the totals were, as it
    was. *)
Theorem discard_counts_original_twice filePath w original produced :
  reaches_output exec filePath w original produced ->
  Size produced >= Size original ->
  snd (processVideo exec filePath w) = (Size original, Size original) /\
  forall totalOriginalSize totalCompressedSize,
    let totals := snd (accumulate exec [filePath] totalOriginalSize
                                  totalCompressedSize w) in
    fst totals = Int64.add totalOriginalSize (Size original) /\
    snd totals = Int64.add totalCompressedSize (Size original) /\
    Int64.sub (fst totals) (snd totals) =
    Int64.sub totalOriginalSize totalCompressedSize.
Proof.
  intros H Hge.
  destruct (reaches_handleResults exec _ _ _ _ H)
    as (w2 & t & _ & _ & _ & Heq).
  destruct (handleResults_discard filePath (compressedFilePath filePath)
                                  _ _ w2 Hge) as (m & _ & Hres).
  rewrite Hres in Heq. split; [now rewrite Heq|].
  intros tO tC. simpl. rewrite Heq. simpl.
  repeat split. apply JobFacts.Int64_sub_add_same.
Qed.

(** C8.  A job that gets past the check of the output path, reads the size
    of the original, and then fails (no pipe, no start, an error from
    [Wait], or an output whose size cannot be read) returns the original
    size and 0. *)
Theorem failed_job_returns_original_and_zero filePath w original :
  (exists err, Stat (fs (prepared filePath w)) (compressedFilePath filePath)
               = inl err) ->
  Stat (fs (prepared filePath w)) filePath = inr original ->
  pipe_err (subprocess exec filePath w) <> None \/
  start_err (subprocess exec filePath w) <> None \/
  wait_err (subprocess exec filePath w) <> None \/
  (exists err,
     Stat (written (subprocess exec filePath w) (compressedFilePath filePath)
                   (fs (prepared filePath w)))
          (compressedFilePath filePath) = inl err) ->
  snd (processVideo exec filePath w) = (Size original, 0) /\
  outcome (fst (processVideo exec filePath w)) = Some Failed.
Proof.
  intros [err Hout] Horig Hfail. unfold subprocess in Hfail.
  rewrite JobFacts.processVideo_cases. cbv zeta.
  rewrite Hout, Horig, JobFacts.compress_cases. cbv zeta.
  destruct (pipe_err _);
    [split; [reflexivity | apply JobFacts.outcome_statusLogger]|].
  destruct (start_err _);
    [split; [reflexivity | apply JobFacts.outcome_statusLogger]|].
  destruct (wait_err _);
    [split; [reflexivity | apply JobFacts.outcome_statusLogger]|].
  destruct Hfail as [Hf|[Hf|[Hf|[err' Hf]]]]; try congruence.
  rewrite Hf. split; [reflexivity | apply JobFacts.outcome_statusLogger].
Qed.

(** The failures of the subprocess have a warning each: no pipe, no start,
    a read that fails (after which the job goes on) and an error from
    [Wait]. *)
Lemma subprocess_failures_are_reported filePath out o w :
  let cmd := command filePath out in
  let p := exec cmd (fs w) in
  let w' := fst (compress exec filePath out o w) in
  (forall err, pipe_err p = Some err ->
     console w' = console w ++ [Status (WarnOutputPipe err)]) /\
  (forall err, pipe_err p = None -> start_err p = Some err ->
     console w' = console w ++ [Status (WarnStarting err)]) /\
  (forall err, pipe_err p = None -> start_err p = None ->
     snd (scan (stderr_lines p) (read_err p) (start cmd w)) = Some err ->
     exists rest,
       console w' = console w ++ Status (WarnReading err) :: rest) /\
  (forall err, pipe_err p = None -> start_err p = None ->
     wait_err p = Some err ->
     exists before,
       console w' = console w ++ before ++ [Status (WarnWaiting err)]).
Proof.
  intros cmd p w'. subst w'. rewrite JobFacts.compress_cases. cbv zeta.
  fold cmd. fold p. repeat split.
  - intros err ->. reflexivity.
  - intros err -> ->. reflexivity.
  - intros err -> -> Hscan.
    assert (Hran : console (ran p cmd out w) =
                   console w ++ [Status (WarnReading err)])
      by (now rewrite JobFacts.ran_console, Hscan).
    destruct (wait_err p).
    + eexists. simpl. rewrite Hran, <- app_assoc. reflexivity.
    + destruct (Stat _ _).
      * eexists. simpl. rewrite Hran, <- app_assoc. reflexivity.
      * unfold handleResults. destruct (_ >=? _).
        -- destruct (Remove _ _). destruct (_ >? _); eexists; simpl;
             rewrite Hran, <- app_assoc; reflexivity.
        -- eexists. simpl. rewrite Hran, <- app_assoc. reflexivity.
  - intros err -> -> ->. eexists. simpl.
    rewrite JobFacts.ran_console, <- app_assoc. reflexivity.
Qed.

(** The two sizes a job returns: the second is never negative and never
    more than the first. *)
Lemma job_sizes_ordered filePath w :
  0 <= snd (snd (processVideo exec filePath w))
    <= fst (snd (processVideo exec filePath w)).
Proof.
  rewrite JobFacts.processVideo_cases. cbv zeta.
  destruct (Stat _ (compressedFilePath filePath)); [|simpl; lia].
  destruct (Stat _ filePath) as [err|info] eqn:Horig; [simpl; lia|].
  pose proof (JobFacts.Stat_size_nonneg _ _ _ Horig) as Ho.
  rewrite JobFacts.compress_cases. cbv zeta.
  destruct (pipe_err _); [simpl; lia|].
  destruct (start_err _); [simpl; lia|].
  destruct (wait_err _); [simpl; lia|].
  destruct (Stat (written _ _ _) _) as [err|info2] eqn:Hstat; [simpl; lia|].
  pose proof (JobFacts.Stat_size_nonneg _ _ _ Hstat) as Hc.
  unfold handleResults. destruct (Size info2 >=? Size info) eqn:Hge.
  - destruct (Remove _ _). simpl. lia.
  - rewrite Z.geb_leb, Z.leb_gt in Hge. simpl. lia.
Qed.

End JobClaims.

(* ================================================================= *)
(** ** Properties of a batch *)

Section BatchClaims.

Variable exec : list string -> node -> process.

Lemma outcomes_ordered files : forall w,
  0 <= sum_compressed (outcomes exec files w)
    <= sum_original (outcomes exec files w).
Proof.
  induction files as [|f files IH]; intros w; simpl; [lia|].
  pose proof (job_sizes_ordered exec f w) as Hjob.
  destruct (processVideo exec f w) as [w1 [o c]]. simpl in *.
  specialize (IH w1). lia.
Qed.

Lemma outcomes_each_ordered files : forall w,
  Forall (fun sizes => 0 <= snd sizes <= fst sizes) (outcomes exec files w).
Proof.
  induction files as [|f files IH]; intros w; simpl; [constructor|].
  pose proof (job_sizes_ordered exec f w) as Hjob.
  destruct (processVideo exec f w) as [w1 [o c]]. constructor; auto.
Qed.

(** Without overflow the totals are the sums of what the jobs returned. *)
Lemma accumulate_sums files : forall totalOriginalSize totalCompressedSize w,
  0 <= totalCompressedSize <= totalOriginalSize ->
  totalOriginalSize + sum_original (outcomes exec files w) <= Int64.max_int ->
  snd (accumulate exec files totalOriginalSize totalCompressedSize w) =
  (totalOriginalSize + sum_original (outcomes exec files w),
   totalCompressedSize + sum_compressed (outcomes exec files w)).
Proof.
  induction files as [|f files IH]; intros tO tC w Hord Hmax; simpl in *.
  - f_equal; lia.
  - pose proof (job_sizes_ordered exec f w) as Hjob.
    destruct (processVideo exec f w) as [w1 [o c]]. simpl in *.
    pose proof (outcomes_ordered files w1) as Hrest.
    assert (Hmin : Int64.min_int <= 0) by (unfold Int64.min_int; lia).
    unfold Int64.add.
    rewrite !JobFacts.Int64_wrap_in_range by (unfold Int64.in_range; lia).
    rewrite IH by lia. f_equal; lia.
Qed.

(** C10, as amended.  Every job returns a second size between 0 and the
    first; and when the sum of the first sizes is within [int64], the total
    of the second sizes is at most the total of the first, and the space
    saved is not negative. *)
Theorem totals_ordered_without_overflow files w :
  sum_original (outcomes exec files w) <= Int64.max_int ->
  Forall (fun sizes => 0 <= snd sizes <= fst sizes) (outcomes exec files w) /\
  snd (snd (processVideos exec files w))
    <= fst (snd (processVideos exec files w)) /\
  0 <= Int64.sub (fst (snd (processVideos exec files w)))
                 (snd (snd (processVideos exec files w))).
Proof.
  intros Hmax. split; [apply outcomes_each_ordered|].
  unfold processVideos. rewrite accumulate_sums by lia. simpl.
  pose proof (outcomes_ordered files w) as Hord.
  split; [lia|].
  unfold Int64.sub. rewrite JobFacts.Int64_wrap_in_range; [lia|].
  unfold Int64.in_range, Int64.min_int, Int64.max_int in *. lia.
Qed.

End BatchClaims.

(* ================================================================= *)
(** ** The output that is already there *)

Section SkipClaim.

Variable exec : list string -> node -> process.

(** C7.  When the compressed file of an input file is already there, the
    job is skipped: it writes its two messages, the second being the "already
    exists" warning, returns 0 and 0, starts no subprocess and leaves the
    tree as it is. *)
Theorem existing_output_is_skipped filePath w info :
  Filepath.is_name (snd (Filepath.Split filePath)) = true ->
  Stat (fs w) (compressedFilePath filePath) = inr info ->
  processVideo exec filePath w =
    (statusLogger (WarnAlreadyExists (snd (Filepath.Split filePath)))
                  (statusLogger (InfoStarting filePath) w), (0, 0)) /\
  outcome (fst (processVideo exec filePath w)) = Some Skipped /\
  started (fst (processVideo exec filePath w)) = started w /\
  fs (fst (processVideo exec filePath w)) = fs w.
Proof.
  intros Hname Hthere.
  assert (Hdir : ensureDir (completedDir filePath) (fs w) = fs w).
  { unfold ensureDir.
    destruct (ResolveFacts.Stat_Join_parent
                (fs w) (completedDir filePath)
                (snd (Filepath.Split filePath)) info) as [info' ->]; auto.
    - now apply ResolveFacts.Join_not_empty.
    - apply ResolveFacts.Split_file_no_sep. }
  assert (Heq : processVideo exec filePath w =
                (statusLogger (WarnAlreadyExists (snd (Filepath.Split filePath)))
                              (statusLogger (InfoStarting filePath) w), (0, 0))).
  { rewrite JobFacts.processVideo_cases. cbv zeta.
    unfold prepared. rewrite Hdir.
    replace (set_fs (fs w) (statusLogger (InfoStarting filePath) w))
      with (statusLogger (InfoStarting filePath) w)
      by (destruct w; reflexivity).
    cbn [fs statusLogger]. now rewrite Hthere. }
  rewrite Heq. repeat split.
  cbn [fst]. apply JobFacts.outcome_statusLogger.
Qed.

(** The theorem is about input files.  A path whose last element is [..]
    names a directory; on it the job makes "Completed" first and then takes
    the directory above it for the compressed file. *)
Remark dotdot_is_no_input_file :
  processVideo exec "a/.." (Examples.boot (Dir true [("a", Dir true [])])) =
  ({| fs := Dir true [("a", Dir true [("Completed", Dir true [])])];
      console := [Status (InfoStarting "a/..");
                  Status (WarnAlreadyExists "..")];
      logfile := [Status (InfoStarting "a/..");
                  Status (WarnAlreadyExists "..")];
      started := [] |}, (0, 0)).
Proof. reflexivity. Qed.

End SkipClaim.

(* ================================================================= *)
(** ** The classifier *)

Module ClassifierFacts.

Import Strings.

Ltac each_byte :=
  let c := fresh "c" in
  intros c; destruct c as [[] [] [] [] [] [] [] []]; reflexivity.

Lemma lowered_dot : lowered "."%char. Proof. each_byte. Qed.
Lemma lowered_m : lowered "m"%char. Proof. each_byte. Qed.
Lemma lowered_p : lowered "p"%char. Proof. each_byte. Qed.
Lemma lowered_4 : lowered "4"%char. Proof. each_byte. Qed.
Lemma lowered_o : lowered "o"%char. Proof. each_byte. Qed.
Lemma lowered_v : lowered "v"%char. Proof. each_byte. Qed.

Lemma ToLower_eqb t : all_lowered t ->
  forall s, String.eqb (ToLower s) t = EqualFold s t.
Proof.
  induction t as [|d t IH]; intros Ht s.
  - destruct s; reflexivity.
  - destruct Ht as [Hd Ht]. destruct s as [|c s]; [reflexivity|].
    simpl. rewrite Hd, (IH Ht). reflexivity.
Qed.

End ClassifierFacts.

(** C9.  [isVideoFile] holds of a path exactly when its extension is
    [.mp4] or [.mov] up to the case of the letters.  (The function reads no
    world and returns none: it has no effect.) *)
Theorem isVideoFile_iff_extension filePath :
  isVideoFile filePath = true <->
  Strings.EqualFold (Filepath.Ext filePath) ".mp4" = true \/
  Strings.EqualFold (Filepath.Ext filePath) ".mov" = true.
Proof.
  unfold isVideoFile. cbv zeta. rewrite orb_true_iff.
  rewrite !ClassifierFacts.ToLower_eqb; [reflexivity| |];
    simpl; auto using ClassifierFacts.lowered_dot, ClassifierFacts.lowered_m,
      ClassifierFacts.lowered_p, ClassifierFacts.lowered_4,
      ClassifierFacts.lowered_o, ClassifierFacts.lowered_v.
Qed.

(* ================================================================= *)
(** ** The theorems at work *)

Import Examples.

(** C3 at work: an original of 50 bytes compressed to 20 is kept. *)
Lemma keep_iff_smaller_witness :
  reaches_output (encoder (Some 20%N) None) "b.MOV" (boot one_video)
                 (size_info 50) (size_info 20) /\
  (outcome (fst (processVideo (encoder (Some 20%N) None) "b.MOV"
                              (boot one_video))) = Some Kept
   <-> 20 < 50).
Proof.
  assert (H : reaches_output (encoder (Some 20%N) None) "b.MOV"
                             (boot one_video) (size_info 50) (size_info 20)).
  { unfold reaches_output. repeat split; try reflexivity.
    eexists; reflexivity. }
  split; [exact H|].
  exact (proj1 (keep_iff_smaller _ _ _ _ _ H)).
Defined.

(** C6 at work: an original of 50 bytes "compressed" to 70 counts as 50 and
    50. *)
Lemma discard_counts_original_twice_witness :
  reaches_output (encoder (Some 70%N) None) "b.MOV" (boot one_video)
                 (size_info 50) (size_info 70) /\
  70 >= 50 /\
  snd (processVideo (encoder (Some 70%N) None) "b.MOV" (boot one_video))
  = (50, 50).
Proof.
  assert (H : reaches_output (encoder (Some 70%N) None) "b.MOV"
                             (boot one_video) (size_info 50) (size_info 70)).
  { unfold reaches_output. repeat split; try reflexivity.
    eexists; reflexivity. }
  assert (Hge : Size (size_info 70) >= Size (size_info 50))
    by (simpl; lia).
  split; [exact H|]. split; [exact Hge|].
  exact (proj1 (discard_counts_original_twice _ _ _ _ _ H Hge)).
Defined.

(** C8 at work: without an encoder the job on 100 bytes returns 100 and
    0. *)
Lemma failed_job_returns_original_and_zero_witness :
  snd (processVideo not_installed "a.mp4" (boot one_mp4)) = (100, 0).
Proof.
  refine (proj1 (failed_job_returns_original_and_zero
                   not_installed "a.mp4" (boot one_mp4) (size_info 100)
                   _ _ _)).
  - eexists; reflexivity.
  - reflexivity.
  - right; left. vm_compute. discriminate.
Defined.

(** C10 at work: one file of 50 bytes kept at 20. *)
Lemma totals_ordered_without_overflow_witness :
  sum_original (outcomes (encoder (Some 20%N) None) ["b.MOV"]
                         (boot one_video)) <= Int64.max_int /\
  0 <= Int64.sub
         (fst (snd (processVideos (encoder (Some 20%N) None) ["b.MOV"]
                                  (boot one_video))))
         (snd (snd (processVideos (encoder (Some 20%N) None) ["b.MOV"]
                                  (boot one_video)))).
Proof.
  assert (H : sum_original (outcomes (encoder (Some 20%N) None) ["b.MOV"]
                                     (boot one_video)) <= Int64.max_int)
    by (vm_compute; discriminate).
  split; [exact H|].
  exact (proj2 (proj2 (totals_ordered_without_overflow _ _ _ H))).
Defined.

(** C7 at work: on the tree an earlier run left, [a.mp4] is skipped. *)
Lemma existing_output_is_skipped_witness :
  started (fst (processVideo (encoder (Some 20%N) None) "a.mp4"
                             (boot second_run))) = [] /\
  fs (fst (processVideo (encoder (Some 20%N) None) "a.mp4"
                        (boot second_run))) = second_run.
Proof.
  refine (proj2 (proj2 (existing_output_is_skipped
                          (encoder (Some 20%N) None) "a.mp4"
                          (boot second_run) (size_info 60) _ _)));
    reflexivity.
Defined.

(** C10, as stated, fails: three files of [2^62] bytes, each kept at one
    byte, make the total of the original sizes wrap around; it ends below
    the total of the compressed sizes, and the space saved is negative. *)
Lemma totals_wrap_around :
  fst (snd (findVideoFiles "." (boot huge))) = ["a.mp4"; "b.mp4"; "c.mp4"] /\
  outcomes (encoder (Some 1%N) None) ["a.mp4"; "b.mp4"; "c.mp4"] (boot huge)
  = [(2 ^ 62, 1); (2 ^ 62, 1); (2 ^ 62, 1)] /\
  snd (processVideos (encoder (Some 1%N) None) ["a.mp4"; "b.mp4"; "c.mp4"]
                     (boot huge)) = (- 2 ^ 62, 3) /\
  ~ (3 <= - 2 ^ 62) /\
  ~ (0 <= Int64.sub (- 2 ^ 62) 3).
Proof.
  repeat split; try (vm_compute; reflexivity);
    vm_compute; intros H; apply H; reflexivity.
Qed.

(* ================================================================= *)
(** ** Where the program departs from its description *)

(** C1.  A job that fails is counted as space saved: with no encoder
    installed, one video of 100 bytes and no file kept, the totals are 100
    and 0 and the summary reports 100 bytes (100 percent) saved. *)
Theorem failed_job_counted_as_saved :
  outcomes not_installed ["a.mp4"] (boot one_mp4) = [(100, 0)] /\
  snd (processVideos not_installed ["a.mp4"] (boot one_mp4)) = (100, 0) /\
  console (main not_installed (boot one_mp4)) =
  [Status (InfoFound 1 0);
   Status (InfoStarting "a.mp4");
   Status (WarnStarting (OtherError "exec: ffmpeg: executable file not found"));
   Status Rule;
   Status (TotalSaved (MB 100) 100%float);
   Status Rule].
Proof. repeat split; vm_compute; reflexivity. Qed.

(** C2.  The percentages are not guarded: with no video at all the summary
    divides 0 by 0 and reports a NaN, whatever the encoder; and an empty
    original that the encoder makes larger is reported with an infinite
    increase. *)
Theorem percentage_of_nothing_is_nan exec :
  PrimFloat.is_nan (percent (Int64.sub 0 0) 0) = true /\
  Float64.is_zero (percent (Int64.sub 0 0) 0) = false /\
  console (main exec (boot (Dir true []))) =
  [Status (InfoFound 0 0); Status Rule;
   Status (TotalSaved 0%float PrimFloat.nan); Status Rule] /\
  console (fst (processVideo (encoder (Some 5%N) None) "z.mp4"
                             (boot empty_video))) =
  [Status (InfoStarting "z.mp4");
   Status (WarnLarger "Completed/z.mp4" "z.mp4" (MB 5) PrimFloat.infinity)].
Proof. repeat split; vm_compute; reflexivity. Qed.

(** C4.  [findVideoFiles] never asks [isCompressedFile]: a file inside a
    "Completed" directory is listed, and its job starts the encoder on
    it. *)
Theorem completed_file_is_listed :
  isCompressedFile "Completed/a.mp4" = true /\
  fst (snd (findVideoFiles "." (boot second_run)))
  = ["Completed/a.mp4"; "a.mp4"] /\
  started (fst (processVideo (encoder (Some 30%N) None) "Completed/a.mp4"
                             (boot second_run)))
  = [command "Completed/a.mp4" "Completed/Completed/a.mp4"].
Proof. repeat split; vm_compute; reflexivity. Qed.

(** C5.  The error of [os.Mkdir] is dropped: in a directory that cannot be
    written to, making "Completed" fails, and the job says nothing of it;
    the only warning is the one for the encoder's exit. *)
Theorem mkdir_error_is_dropped :
  Mkdir read_only "Completed"
  = (read_only, Some (PathError "mkdir" "Completed" EACCES)) /\
  console (fst (processVideo (encoder None (Some (ExitError 1))) "a.mp4"
                             (boot read_only))) =
  [Status (InfoStarting "a.mp4"); Status (WarnWaiting (ExitError 1))].
Proof. repeat split; vm_compute; reflexivity. Qed.

(* ================================================================= *)
(** ** What the operations on the tree leave alone *)

Module FrameFacts.

Import OS Vidcom.

Lemma find_insert_other s s' new es :
  s <> s' -> find s (insert s' new es) = find s es.
Proof.
  intros Hne. induction es as [|[k n] es IH]; simpl.
  - destruct (String.eqb_spec s' s); congruence.
  - destruct (String.ltb s' k); simpl.
    + destruct (String.eqb_spec s' s); congruence.
    + now rewrite IH.
Qed.

Lemma find_replace_other s s' new es :
  s <> s' -> find s (replace s' new es) = find s es.
Proof.
  intros Hne. induction es as [|[k n] es IH]; simpl; auto.
  destruct (String.eqb_spec k s'); simpl.
  - subst k. destruct (String.eqb_spec s' s); congruence.
  - now rewrite IH.
Qed.

Lemma find_delete_other s s' es :
  s <> s' -> find s (delete s' es) = find s es.
Proof.
  intros Hne. induction es as [|[k n] es IH]; simpl; auto.
  destruct (String.eqb_spec k s'); simpl.
  - subst k. destruct (String.eqb_spec s' s); congruence.
  - now rewrite IH.
Qed.

(** A file that is there is still there when a node was created. *)
Lemma lookup_file_create p : forall n q new n' size,
  lookup n p = inr (File size) ->
  create n q new = inr n' ->
  lookup n' p = inr (File size).
Proof.
  induction p as [|s p IH]; intros n q new n' size Hl Hc.
  - simpl in Hl. injection Hl as ->.
    destruct q; simpl in Hc; discriminate.
  - destruct n as [sz|w es]; [discriminate|]. simpl in Hl.
    destruct (find s es) as [c|] eqn:Hf; [|discriminate].
    destruct q as [|s' q]; [discriminate|]. simpl in Hc.
    destruct q as [|s'' q].
    + destruct (find s' es) eqn:Hf'; [discriminate|].
      destruct w; [|discriminate]. injection Hc as <-.
      simpl. rewrite find_insert_other by congruence. now rewrite Hf.
    + destruct (find s' es) as [c0|] eqn:Hf'; [|discriminate].
      destruct (create c0 (s'' :: q) new) as [e|c0'] eqn:Hc0; [discriminate|].
      injection Hc as <-. simpl.
      destruct (String.eqb_spec s s') as [->|Hne].
      * rewrite (TreeFacts.find_replace _ _ _ _ Hf').
        rewrite Hf in Hf'. injection Hf' as ->. eapply IH; eauto.
      * rewrite find_replace_other by assumption. now rewrite Hf.
Qed.

(** A file that is there is still there when another node was removed. *)
Lemma lookup_file_unlink p : forall n q n' size,
  lookup n p = inr (File size) ->
  unlink n q = inr n' ->
  p <> q ->
  lookup n' p = inr (File size).
Proof.
  induction p as [|s p IH]; intros n q n' size Hl Hu Hne.
  - simpl in Hl. injection Hl as ->.
    destruct q; simpl in Hu; discriminate.
  - destruct n as [sz|w es]; [discriminate|]. simpl in Hl.
    destruct (find s es) as [c|] eqn:Hf; [|discriminate].
    destruct q as [|s' q]; [discriminate|]. simpl in Hu.
    destruct (find s' es) as [c0|] eqn:Hf'; [|discriminate].
    destruct q as [|s'' q].
    + destruct (removable c0) eqn:Hrm; simpl in Hu; [|discriminate].
      destruct w; [|discriminate]. injection Hu as <-. simpl.
      destruct (String.eqb_spec s s') as [->|Hs].
      * exfalso. rewrite Hf in Hf'. injection Hf' as ->.
        destruct p as [|s2 p]; [congruence|].
        destruct c0 as [sz|w0 [|e es0]]; simpl in *; discriminate.
      * rewrite find_delete_other by assumption. now rewrite Hf.
    + destruct (unlink c0 (s'' :: q)) as [e|c0'] eqn:Hc0; [discriminate|].
      injection Hu as <-. simpl.
      destruct (String.eqb_spec s s') as [->|Hs].
      * rewrite (TreeFacts.find_replace _ _ _ _ Hf').
        rewrite Hf in Hf'. injection Hf' as ->.
        eapply IH; eauto. congruence.
      * rewrite find_replace_other by assumption. now rewrite Hf.
Qed.

Lemma Stat_file t path info :
  Stat t path = inr info -> IsDir info = false ->
  exists names size,
    resolve path = Some names /\ lookup t names = inr (File size) /\
    info = info_of (File size).
Proof.
  unfold Stat, at_path. destruct (resolve path) as [names|]; [|discriminate].
  destruct (lookup t names) as [e|n] eqn:Hl; [discriminate|].
  intros [= <-] Hd. destruct n as [size|]; [|discriminate]. eauto.
Qed.

Lemma Stat_of_file t path names size :
  resolve path = Some names -> lookup t names = inr (File size) ->
  Stat t path = inr (info_of (File size)).
Proof. intros Hr Hl. unfold Stat, at_path. now rewrite Hr, Hl. Qed.

Lemma keeps_files_refl t : keeps_files t t.
Proof. intros path info _ H. exact H. Qed.

Lemma keeps_files_trans t1 t2 t3 :
  keeps_files t1 t2 -> keeps_files t2 t3 -> keeps_files t1 t3.
Proof. intros H12 H23 path info Hd H. apply H23, H12; auto. Qed.

Lemma Mkdir_keeps_files t path : keeps_files t (fst (Mkdir t path)).
Proof.
  intros p info Hd Hs. unfold Mkdir, at_path.
  destruct (resolve path) as [q|]; [|exact Hs].
  destruct (create t q (Dir true [])) as [e|t'] eqn:Hc; [exact Hs|]. simpl.
  destruct (Stat_file _ _ _ Hs Hd) as (names & size & Hr & Hl & ->).
  eapply Stat_of_file; eauto using lookup_file_create.
Qed.

Lemma write_new_keeps_files t path size :
  keeps_files t (write_new t path size).
Proof.
  intros p info Hd Hs. unfold write_new, at_path.
  destruct (resolve path) as [q|]; [|exact Hs].
  destruct (create t q (File size)) as [e|t'] eqn:Hc; [exact Hs|].
  destruct (Stat_file _ _ _ Hs Hd) as (names & sz & Hr & Hl & ->).
  eapply Stat_of_file; eauto using lookup_file_create.
Qed.

(** Removing a path that was just written where nothing was keeps the
    files that were there. *)
Lemma Remove_written_keeps_files t path size err :
  Stat t path = inl err ->
  keeps_files t (fst (Remove (write_new t path size) path)).
Proof.
  intros Hnone p info Hd Hs.
  pose proof (write_new_keeps_files t path size p info Hd Hs) as Hs'.
  unfold Remove, at_path.
  destruct (resolve path) as [q|] eqn:Hq; [|exact Hs'].
  destruct (unlink (write_new t path size) q) as [e|t'] eqn:Hu;
    [exact Hs'|]. simpl.
  destruct (Stat_file _ _ _ Hs Hd) as (names & sz & Hr & Hl & ->).
  destruct (Stat_file _ _ _ Hs' Hd) as (names' & sz' & Hr' & Hl' & Hi).
  rewrite Hr in Hr'. injection Hr' as <-.
  injection Hi as Hi. apply N2Z.inj in Hi. subst sz'.
  eapply Stat_of_file; eauto. eapply lookup_file_unlink; eauto.
  intros ->. unfold Stat, at_path in Hnone. rewrite Hq, Hl in Hnone.
  discriminate.
Qed.

End FrameFacts.

(* ================================================================= *)
(** ** More about one job *)

Module JobMore.

Import OS Vidcom.
Local Open Scope list_scope.

Lemma continues_refl w : continues w w.
Proof. exists []. simpl. now rewrite !app_nil_r. Qed.

Lemma continues_trans w1 w2 w3 :
  continues w1 w2 -> continues w2 w3 -> continues w1 w3.
Proof.
  intros (m1 & Hl1 & Hc1) (m2 & Hl2 & Hc2). exists (m1 ++ m2).
  rewrite Hl2, Hc2, Hl1, Hc1, filter_app, !app_assoc. auto.
Qed.

Lemma continues_statusLogger m w : continues w (statusLogger m w).
Proof. exists [Status m]. auto. Qed.

Lemma continues_ffmpegLogger text w : continues w (ffmpegLogger text w).
Proof. exists [FFmpeg text]. simpl. now rewrite app_nil_r. Qed.

Lemma continues_same w w' :
  logfile w' = logfile w -> console w' = console w -> continues w w'.
Proof. intros Hl Hc. exists []. simpl. now rewrite !app_nil_r. Qed.

Lemma continues_scan lines last : forall w,
  continues w (fst (scan lines last w)).
Proof.
  induction lines as [|text lines IH]; intros w; simpl.
  - apply continues_refl.
  - destruct (maxCapacity <=? _); simpl; [apply continues_refl|].
    eapply continues_trans; [apply continues_ffmpegLogger | apply IH].
Qed.

Lemma continues_ran p cmd out w : continues w (ran p cmd out w).
Proof.
  unfold ran.
  pose proof (continues_scan (stderr_lines p) (read_err p) (start cmd w)) as H.
  destruct (scan _ _ _) as [w2 err]. simpl in H.
  eapply continues_trans; [apply continues_same with (w' := start cmd w);
                           reflexivity|].
  eapply continues_trans; [exact H|].
  destruct err as [err|].
  - eapply continues_trans; [apply continues_statusLogger|].
    apply continues_same; reflexivity.
  - apply continues_same; reflexivity.
Qed.

Lemma continues_handleResults filePath out o c w :
  continues w (fst (handleResults filePath out o c w)).
Proof.
  unfold handleResults. destruct (c >=? o).
  - destruct (Remove (fs w) out) as [t err].
    destruct (c >? o); simpl;
      (eapply continues_trans;
       [apply continues_same with (w' := set_fs t w); reflexivity
       |apply continues_statusLogger]).
  - apply continues_statusLogger.
Qed.

Section Job.

Variable exec : list string -> node -> process.

Lemma continues_compress filePath out o w :
  continues w (fst (compress exec filePath out o w)).
Proof.
  rewrite JobFacts.compress_cases. cbv zeta.
  destruct (pipe_err _); [apply continues_statusLogger|].
  destruct (start_err _); [apply continues_statusLogger|].
  destruct (wait_err _).
  { eapply continues_trans; [apply continues_ran|apply continues_statusLogger]. }
  destruct (Stat _ _).
  { eapply continues_trans; [apply continues_ran|apply continues_statusLogger]. }
  eapply continues_trans; [apply continues_ran|apply continues_handleResults].
Qed.



Lemma ensureDir_keeps_files dir t : keeps_files t (ensureDir dir t).
Proof.
  unfold ensureDir. destruct (Stat t dir) as [err|];
    [|apply FrameFacts.keeps_files_refl].
  destruct (IsNotExist _);
    [apply FrameFacts.Mkdir_keeps_files|apply FrameFacts.keeps_files_refl].
Qed.

Lemma compress_keeps_files filePath out o w err :
  Stat (fs w) out = inl err ->
  keeps_files (fs w) (fs (fst (compress exec filePath out o w))).
Proof.
  intros Hnone. rewrite JobFacts.compress_cases. cbv zeta.
  destruct (pipe_err _); [apply FrameFacts.keeps_files_refl|].
  destruct (start_err _); [apply FrameFacts.keeps_files_refl|].
  set (p := exec _ _).
  assert (Hw : keeps_files (fs w) (written p out (fs w))).
  { unfold written. destruct (output p);
      [apply FrameFacts.write_new_keeps_files
      |apply FrameFacts.keeps_files_refl]. }
  destruct (wait_err p); [simpl; now rewrite JobFacts.ran_fs|].
  destruct (Stat (written p out (fs w)) out) as [e|info] eqn:Hs;
    [simpl; now rewrite JobFacts.ran_fs|].
  unfold handleResults. destruct (_ >=? _).
  - rewrite JobFacts.ran_fs.
    destruct (Remove (written p out (fs w)) out) as [t e] eqn:Hr.
    assert (Ht : keeps_files (fs w) t).
    { unfold written in Hr, Hs. destruct (output p) as [size|];
        [|congruence].
      replace t with (fst (Remove (write_new (fs w) out size) out))
        by now rewrite Hr.
      eapply FrameFacts.Remove_written_keeps_files; eauto. }
    destruct (_ >? _); exact Ht.
  - simpl. now rewrite JobFacts.ran_fs.
Qed.

Lemma processVideo_keeps_files filePath w :
  keeps_files (fs w) (fs (fst (processVideo exec filePath w))).
Proof.
  rewrite JobFacts.processVideo_cases. cbv zeta.
  assert (Hp : keeps_files (fs w) (fs (prepared filePath w)))
    by apply ensureDir_keeps_files.
  destruct (Stat _ (compressedFilePath filePath)) as [err|] eqn:Hout;
    [|exact Hp].
  destruct (Stat _ filePath); [exact Hp|].
  eapply FrameFacts.keeps_files_trans; [exact Hp|].
  eapply compress_keeps_files; eauto.
Qed.


(** The start of the proof that an output that is there is skipped. *)
Lemma processVideo_skips filePath w info :
  Filepath.is_name (snd (Filepath.Split filePath)) = true ->
  Stat (fs w) (compressedFilePath filePath) = inr info ->
  processVideo exec filePath w =
    (statusLogger (WarnAlreadyExists (snd (Filepath.Split filePath)))
                  (statusLogger (InfoStarting filePath) w), (0, 0)).
Proof.
  intros Hname Hthere.
  assert (Hdir : ensureDir (completedDir filePath) (fs w) = fs w).
  { unfold ensureDir.
    destruct (ResolveFacts.Stat_Join_parent
                (fs w) (completedDir filePath)
                (snd (Filepath.Split filePath)) info) as [info' ->]; auto.
    - now apply ResolveFacts.Join_not_empty.
    - apply ResolveFacts.Split_file_no_sep. }
  rewrite JobFacts.processVideo_cases. cbv zeta.
  unfold prepared. rewrite Hdir.
  replace (set_fs (fs w) (statusLogger (InfoStarting filePath) w))
    with (statusLogger (InfoStarting filePath) w)
    by (destruct w; reflexivity).
  cbn [fs statusLogger]. now rewrite Hthere.
Qed.

End Job.

End JobMore.

(* ================================================================= *)
(** ** Further properties of one job *)

Section JobExtras.

Variable exec : list string -> node -> process.


(** X2.  What the subprocess writes to stderr, and whether reading it
    fails, changes nothing but the log: the sizes returned, the tree, the
    subprocesses started and the verdict are the same. *)
Theorem stderr_does_not_decide exec' filePath w :
  (forall argv t, same_but_stderr (exec argv t) (exec' argv t)) ->
  snd (processVideo exec filePath w) = snd (processVideo exec' filePath w) /\
  fs (fst (processVideo exec filePath w))
  = fs (fst (processVideo exec' filePath w)) /\
  started (fst (processVideo exec filePath w))
  = started (fst (processVideo exec' filePath w)) /\
  outcome (fst (processVideo exec filePath w))
  = outcome (fst (processVideo exec' filePath w)).
Proof.
  intros Hsame. rewrite !JobFacts.processVideo_cases. cbv zeta.
  destruct (Stat _ (compressedFilePath filePath));
    [|cbn [fst snd]; rewrite !JobFacts.outcome_statusLogger; auto].
  destruct (Stat _ filePath) as [|original];
    [cbn [fst snd]; rewrite !JobFacts.outcome_statusLogger; auto|].
  rewrite !JobFacts.compress_cases. cbv zeta.
  destruct (Hsame (command filePath (compressedFilePath filePath))
                  (fs (prepared filePath w))) as (Hp & Hs & Hw & Ho).
  set (p := exec _ _) in *. set (p' := exec' _ _) in *.
  assert (Hwr : forall t, written p' (compressedFilePath filePath) t
                          = written p (compressedFilePath filePath) t)
    by (intros t; unfold written; now rewrite Ho).
  rewrite <- Hp, <- Hs, <- Hw, Hwr.
  destruct (pipe_err p);
    [cbn [fst snd]; rewrite !JobFacts.outcome_statusLogger; auto|].
  destruct (start_err p);
    [cbn [fst snd]; rewrite !JobFacts.outcome_statusLogger; auto|].
  destruct (wait_err p).
  { cbn [fst snd]. rewrite !JobFacts.outcome_statusLogger. simpl.
    rewrite !JobFacts.ran_fs, !JobFacts.ran_started, Hwr. auto. }
  destruct (Stat _ _) as [err|produced].
  { cbn [fst snd]. rewrite !JobFacts.outcome_statusLogger. simpl.
    rewrite !JobFacts.ran_fs, !JobFacts.ran_started, Hwr. auto. }
  unfold handleResults. rewrite !JobFacts.ran_fs, Hwr.
  destruct (_ >=? _).
  - destruct (Remove _ _) as [t rmerr].
    destruct (_ >? _); cbn [fst snd];
      rewrite !JobFacts.outcome_statusLogger; simpl;
      rewrite !JobFacts.ran_started; auto.
  - cbn [fst snd]. rewrite !JobFacts.outcome_statusLogger. simpl.
    rewrite !JobFacts.ran_fs, !JobFacts.ran_started, Hwr. auto.
Qed.

(** X3.  When a job keeps its output, it returns the size of the original
    and the size of the output, and the output is on disk with that
    size. *)
Theorem kept_output_remains filePath w original produced :
  reaches_output exec filePath w original produced ->
  Size produced < Size original ->
  snd (processVideo exec filePath w) = (Size original, Size produced) /\
  Stat (fs (fst (processVideo exec filePath w)))
       (compressedFilePath filePath) = inr produced.
Proof.
  intros H Hlt.
  destruct (reaches_handleResults exec _ _ _ _ H)
    as (w2 & t & Hthere & _ & _ & ->).
  destruct (handleResults_keep filePath (compressedFilePath filePath)
                               _ _ w2 Hlt) as (m & _ & ->).
  split; [reflexivity|exact Hthere].
Qed.


End JobExtras.

(* ================================================================= *)
(** ** Facts about the walk *)

Module WalkFacts.

Import OS Vidcom.
Local Open Scope list_scope.

Section NodeInduction.

Variable P : node -> Prop.
Hypothesis HFile : forall size, P (File size).
Hypothesis HDir :
  forall w es, Forall (fun e => P (snd e)) es -> P (Dir w es).

Fixpoint node_nested_ind (n : node) : P n :=
  match n with
  | File size => HFile size
  | Dir w es =>
      HDir w es
           ((fix all (es : list (string * node))
             : Forall (fun e => P (snd e)) es :=
               match es with
               | [] => Forall_nil _
               | e :: es' => Forall_cons e (node_nested_ind (snd e)) (all es')
               end) es)
  end.

End NodeInduction.

Lemma walk_Dir {S} (fn : string -> option FileInfo -> option error -> S
                         -> S * option error) path w es s :
  walk fn path (Dir w es) s =
  match fn path (Some (info_of (Dir w es))) None s with
  | (s1, Some err) => (s1, Some err)
  | (s1, None) => walk_entries fn path es s1
  end.
Proof. reflexivity. Qed.

Lemma count_dirs_Dir w es : count_dirs (Dir w es) = 1 + count_below es.
Proof.
  unfold count_below. cbn -[Z.add]. f_equal.
  induction es as [|[k c] es IH]; cbn -[Z.add]; [reflexivity|].
  now rewrite IH.
Qed.

Lemma well_formed_Dir w es :
  well_formed (Dir w es) <-> NoDup (map fst es) /\ Forall entry_ok es.
Proof.
  simpl. apply and_iff_compat_l.
  induction es as [|[k c] es IH]; simpl.
  - split; auto.
  - rewrite IH. unfold entry_ok at 2. simpl. split.
    + intros (? & ? & ? & ?). constructor; auto.
    + intros H. inversion H as [|? ? (? & ? & ?) ?]; subst. auto.
Qed.

Lemma Int64_wrap_add_wrap a b :
  Int64.wrap (Int64.wrap a + b) = Int64.wrap (a + b).
Proof.
  unfold Int64.wrap. f_equal.
  replace ((a + 2 ^ 63) mod 2 ^ 64 - 2 ^ 63 + b + 2 ^ 63)
    with ((a + 2 ^ 63) mod 2 ^ 64 + b) by lia.
  rewrite Zplus_mod_idemp_l. f_equal. lia.
Qed.

(** What the walk of [findVideoFiles] does to its two variables on a
    tree: it never fails, the files it adds are video files, and it counts
    the directories. *)
Lemma walk_visit n : forall path files dirCount,
  exists new dirCount',
    walk visit path n (files, dirCount) = ((files ++ new, dirCount'), None) /\
    Int64.wrap dirCount' = Int64.wrap (dirCount + count_dirs n) /\
    Forall (fun p => isVideoFile p = true) new.
Proof.
  induction n as [size|w es IH] using node_nested_ind; intros path files dc.
  - simpl. destruct (isVideoFile path) eqn:Hv.
    + exists [path], dc. rewrite Z.add_0_r. auto.
    + exists [], dc. rewrite app_nil_r, Z.add_0_r. auto.
  - rewrite walk_Dir, count_dirs_Dir. cbn -[Z.add Int64.add].
    assert (Hes : forall files dc,
               exists new dc',
                 walk_entries visit path es (files, dc)
                 = ((files ++ new, dc'), None) /\
                 Int64.wrap dc' = Int64.wrap (dc + count_below es) /\
                 Forall (fun p => isVideoFile p = true) new).
    { clear files dc. induction es as [|[k c] es IHes]; intros files dc.
      - exists [], dc. simpl. rewrite app_nil_r, Z.add_0_r. auto.
      - inversion IH as [|? ? Hc Hrest]; subst. simpl in Hc.
        destruct (Hc (Filepath.Join path k) files dc)
          as (new1 & dc1 & Hw1 & Hd1 & Hv1).
        destruct (IHes Hrest (files ++ new1) dc1)
          as (new2 & dc2 & Hw2 & Hd2 & Hv2).
        exists (new1 ++ new2), dc2. simpl. rewrite Hw1, Hw2.
        rewrite app_assoc. repeat split; [|now apply Forall_app].
        rewrite Hd2.
        change (count_below ((k, c) :: es))
          with (count_dirs c + count_below es).
        rewrite <- (Int64_wrap_add_wrap dc1), Hd1, Int64_wrap_add_wrap.
        now rewrite Z.add_assoc. }
    destruct (Hes files (Int64.add dc 1)) as (new & dc' & Hw & Hd & Hv).
    exists new, dc'. rewrite Hw. repeat split; auto.
    rewrite Hd. unfold Int64.add. rewrite Int64_wrap_add_wrap.
    now rewrite Z.add_assoc.
Qed.

End WalkFacts.

(* ================================================================= *)
(** ** Properties of the search for video files *)

(** X5.  Every path [findVideoFiles] returns is a video file by its
    extension, whatever the directory and the tree. *)
Theorem listed_files_are_videos dirPath w :
  Forall (fun p => isVideoFile p = true)
         (fst (snd (findVideoFiles dirPath w))).
Proof.
  unfold findVideoFiles, Walk.
  destruct (at_path "lstat" dirPath (lookup (fs w))) as [err|n].
  - simpl. constructor.
  - destruct (WalkFacts.walk_visit n dirPath [] 0)
      as (new & dc & -> & _ & Hv). exact Hv.
Qed.


(** X7.  On a directory that is not there, [findVideoFiles] prints the
    error to the console (not to the log file), finds no file and returns
    -1 for the number of directories. *)
Theorem findVideoFiles_missing_directory dirPath w err :
  Stat (fs w) dirPath = inl err ->
  exists err',
    findVideoFiles dirPath w = (printError err' w, ([], -1)).
Proof.
  unfold Stat, findVideoFiles, Walk, at_path.
  destruct (resolve dirPath) as [names|].
  - destruct (lookup (fs w) names) as [e|n]; [|discriminate].
    intros _. eexists. reflexivity.
  - intros _. eexists. reflexivity.
Qed.

(* ================================================================= *)
(** ** More about a batch *)

Module BatchMore.

Import OS Vidcom.
Local Open Scope list_scope.

Lemma Int64_wrap_is_in_range z : Int64.in_range (Int64.wrap z).
Proof.
  unfold Int64.in_range, Int64.wrap, Int64.min_int, Int64.max_int.
  pose proof (Z.mod_pos_bound (z + 2 ^ 63) (2 ^ 64)). lia.
Qed.


Section Batch.

Variable exec : list string -> node -> process.

Lemma accumulate_keeps_files files : forall tO tC w,
  keeps_files (fs w) (fs (fst (accumulate exec files tO tC w))).
Proof.
  induction files as [|f files IH]; intros tO tC w; simpl.
  - apply FrameFacts.keeps_files_refl.
  - pose proof (JobMore.processVideo_keeps_files exec f w) as Hjob.
    destruct (processVideo exec f w) as [w1 [o c]].
    eapply FrameFacts.keeps_files_trans; [exact Hjob|apply IH].
Qed.



Lemma accumulate_wrapped files : forall tO tC w,
  Int64.wrap (fst (snd (accumulate exec files tO tC w)))
  = Int64.wrap (tO + sum_original (outcomes exec files w)) /\
  Int64.wrap (snd (snd (accumulate exec files tO tC w)))
  = Int64.wrap (tC + sum_compressed (outcomes exec files w)) /\
  (Int64.in_range tO ->
   Int64.in_range (fst (snd (accumulate exec files tO tC w)))) /\
  (Int64.in_range tC ->
   Int64.in_range (snd (snd (accumulate exec files tO tC w)))).
Proof.
  induction files as [|f files IH]; intros tO tC w; cbn -[Z.add].
  - rewrite !Z.add_0_r. auto.
  - destruct (processVideo exec f w) as [w1 [o c]].
    destruct (IH (Int64.add tO o) (Int64.add tC c) w1)
      as (H1 & H2 & H3 & H4).
    cbn -[Z.add]. rewrite H1, H2. unfold Int64.add in *.
    rewrite !WalkFacts.Int64_wrap_add_wrap, !Z.add_assoc.
    split; [reflexivity|]. split; [reflexivity|].
    split; intros _; [apply H3|apply H4]; apply Int64_wrap_is_in_range.
Qed.

End Batch.

End BatchMore.

(* ================================================================= *)
(** ** Further properties of a batch and of the program *)

Section BatchExtras.

Variable exec : list string -> node -> process.



(** X10.  The two totals of a batch are the sums of the sizes its jobs
    returned, as [int64] holds them: the sums modulo [2^64]. *)
Theorem totals_are_wrapped_sums files w :
  snd (processVideos exec files w) =
  (Int64.wrap (sum_original (outcomes exec files w)),
   Int64.wrap (sum_compressed (outcomes exec files w))).
Proof.
  unfold processVideos.
  destruct (BatchMore.accumulate_wrapped exec files 0 0 w)
    as (H1 & H2 & H3 & H4).
  assert (H0 : Int64.in_range 0)
    by (unfold Int64.in_range, Int64.min_int, Int64.max_int; lia).
  destruct (accumulate exec files 0 0 w) as [w' [a b]].
  cbn [fst snd] in *. rewrite Z.add_0_l in H1, H2. f_equal.
  - rewrite <- H1. symmetry. apply JobFacts.Int64_wrap_in_range, H3, H0.
  - rewrite <- H2. symmetry. apply JobFacts.Int64_wrap_in_range, H4, H0.
Qed.


End BatchExtras.

(* ================================================================= *)
(** ** More about the classifiers *)

Module ClassifierMore.

Import Strings Filepath Vidcom.

Lemma append_nil (a : string) : (a ++ "")%string = a.
Proof. induction a as [|x a IH]; simpl; [reflexivity|]. now rewrite IH. Qed.

Lemma append_assoc (a b c : string) :
  ((a ++ b) ++ c = a ++ (b ++ c))%string.
Proof. induction a as [|x a IH]; simpl; [reflexivity|]. now rewrite IH. Qed.

Lemma Split_app path : path = (fst (Split path) ++ snd (Split path))%string.
Proof.
  induction path as [|c rest IH]; simpl; [reflexivity|].
  destruct (Split rest) as [dir file]. simpl in IH.
  destruct (is_empty dir) eqn:Hd.
  - destruct dir; [|discriminate]. simpl in IH. subst rest.
    destruct (IsPathSeparator c); reflexivity.
  - simpl. now rewrite <- IH.
Qed.

Lemma Split_no_sep s : no_sep s = true -> Split s = ("", s).
Proof.
  induction s as [|c r IH]; simpl; [reflexivity|].
  rewrite andb_true_iff, negb_true_iff. intros [Hc Hr].
  now rewrite (IH Hr), Hc.
Qed.

Lemma Split_append stem ext :
  no_sep ext = true ->
  Split (stem ++ ext) = (fst (Split stem), (snd (Split stem) ++ ext)%string).
Proof.
  intros Hn. induction stem as [|c stem IH]; simpl.
  - now apply Split_no_sep.
  - rewrite IH. destruct (Split stem) as [dir file]. simpl.
    destruct (is_empty dir); [|reflexivity].
    destruct (IsPathSeparator c); reflexivity.
Qed.

Lemma from_last_dot_suffix s :
  exists stem, s = (stem ++ from_last_dot s)%string.
Proof.
  induction s as [|c r [stem IH]]; simpl; [now exists ""|].
  destruct (from_last_dot r) as [|d e].
  - destruct (Ascii.eqb c "."); [now exists ""|].
    exists (String c r). now rewrite append_nil.
  - exists (String c stem). simpl. now rewrite <- IH.
Qed.

Lemma Ext_suffix path : exists stem, path = (stem ++ Ext path)%string.
Proof.
  unfold Ext. destruct (from_last_dot_suffix (snd (Split path))) as [stem H].
  exists (fst (Split path) ++ stem)%string.
  rewrite append_assoc, <- H. apply Split_app.
Qed.

Lemma plain_no_sep s : plain s = true -> no_sep s = true.
Proof.
  induction s as [|c r IH]; simpl; [reflexivity|].
  rewrite !andb_true_iff. intros [[_ ->] Hr]. auto.
Qed.

Lemma from_last_dot_plain s : plain s = true -> from_last_dot s = "".
Proof.
  induction s as [|c r IH]; simpl; [reflexivity|].
  rewrite !andb_true_iff, !negb_true_iff. intros [[-> _] Hr].
  now rewrite (IH Hr).
Qed.

Lemma from_last_dot_app stem rest :
  plain rest = true ->
  from_last_dot (stem ++ String "." rest) = String "." rest.
Proof.
  intros Hp. induction stem as [|c stem IH]; simpl.
  - now rewrite (from_last_dot_plain _ Hp).
  - now rewrite IH.
Qed.

(** The extension of a path that ends with a dot and plain bytes. *)
Lemma Ext_append stem rest :
  plain rest = true -> Ext (stem ++ String "." rest) = String "." rest.
Proof.
  intros Hp. unfold Ext. rewrite Split_append.
  - cbn [snd]. now apply from_last_dot_app.
  - simpl. now rewrite (plain_no_sep _ Hp).
Qed.

Ltac plain_byte :=
  let c := fresh "c" in
  let H := fresh "H" in
  intros c; destruct c as [[] [] [] [] [] [] [] []]; intros H;
  vm_compute in H; try discriminate H; reflexivity.

Lemma same_letter_dot c : same_letter c "." = true -> c = "."%char.
Proof. revert c. plain_byte. Qed.

Lemma same_letter_m c :
  same_letter c "m" = true -> plain (String c "") = true.
Proof. revert c. plain_byte. Qed.

Lemma same_letter_p c :
  same_letter c "p" = true -> plain (String c "") = true.
Proof. revert c. plain_byte. Qed.

Lemma same_letter_4 c :
  same_letter c "4" = true -> plain (String c "") = true.
Proof. revert c. plain_byte. Qed.

Lemma same_letter_o c :
  same_letter c "o" = true -> plain (String c "") = true.
Proof. revert c. plain_byte. Qed.

Lemma same_letter_v c :
  same_letter c "v" = true -> plain (String c "") = true.
Proof. revert c. plain_byte. Qed.

Lemma plain_cons c r :
  plain (String c "") = true -> plain r = true -> plain (String c r) = true.
Proof.
  simpl. rewrite !andb_true_iff. intros [H _] Hr. auto.
Qed.

(** What is [.mp4] or [.mov] up to case is a dot and three plain bytes. *)
Lemma EqualFold_extension e :
  EqualFold e ".mp4" = true \/ EqualFold e ".mov" = true ->
  exists rest, e = String "." rest /\ plain rest = true.
Proof.
  destruct e as [|c0 [|c1 [|c2 [|c3 [|c4 r]]]]]; simpl;
    rewrite ?andb_false_r; try (intros [H|H]; discriminate H).
  rewrite !andb_true_r, !andb_true_iff.
  intros [(H0 & H1 & H2 & H3)|(H0 & H1 & H2 & H3)];
    apply same_letter_dot in H0; subst c0; eexists; (split; [reflexivity|]).
  - apply plain_cons; [now apply same_letter_m|].
    apply plain_cons; [now apply same_letter_p|now apply same_letter_4].
  - apply plain_cons; [now apply same_letter_m|].
    apply plain_cons; [now apply same_letter_o|now apply same_letter_v].
Qed.

Lemma isVideoFile_EqualFold filePath :
  isVideoFile filePath = true <->
  EqualFold (Ext filePath) ".mp4" = true \/
  EqualFold (Ext filePath) ".mov" = true.
Proof.
  unfold isVideoFile. cbv zeta. rewrite orb_true_iff.
  rewrite !ClassifierFacts.ToLower_eqb; [reflexivity| |];
    simpl; auto using ClassifierFacts.lowered_dot, ClassifierFacts.lowered_m,
      ClassifierFacts.lowered_p, ClassifierFacts.lowered_4,
      ClassifierFacts.lowered_o, ClassifierFacts.lowered_v.
Qed.

End ClassifierMore.

(** X12.  A path is a video file exactly when it ends with [.mp4] or
    [.mov], in any mix of upper and lower case; what stands before that
    ending, directories and dots included, does not matter. *)
Theorem isVideoFile_iff_ending filePath :
  isVideoFile filePath = true <->
  exists stem ending,
    filePath = (stem ++ ending)%string /\
    (Strings.EqualFold ending ".mp4" = true \/
     Strings.EqualFold ending ".mov" = true).
Proof.
  rewrite ClassifierMore.isVideoFile_EqualFold. split.
  - intros H. destruct (ClassifierMore.Ext_suffix filePath) as [stem Hs].
    eauto.
  - intros (stem & ending & -> & H).
    destruct (ClassifierMore.EqualFold_extension _ H) as (rest & -> & Hp).
    now rewrite (ClassifierMore.Ext_append _ _ Hp).
Qed.

(* ================================================================= *)
(** ** The marker in a path *)

Module MarkerFacts.

Import Strings Filepath Vidcom.

Lemma lowered_c : lowered "c"%char. Proof. ClassifierFacts.each_byte. Qed.
Lemma lowered_l : lowered "l"%char. Proof. ClassifierFacts.each_byte. Qed.
Lemma lowered_e : lowered "e"%char. Proof. ClassifierFacts.each_byte. Qed.
Lemma lowered_t : lowered "t"%char. Proof. ClassifierFacts.each_byte. Qed.
Lemma lowered_d : lowered "d"%char. Proof. ClassifierFacts.each_byte. Qed.

Lemma ToLower_completed m :
  ToLower m = "completed" <-> EqualFold m "completed" = true.
Proof.
  rewrite <- String.eqb_eq, ClassifierFacts.ToLower_eqb; [reflexivity|].
  simpl. auto 12 using lowered_c, lowered_l, lowered_e, lowered_t, lowered_d,
    ClassifierFacts.lowered_o, ClassifierFacts.lowered_m,
    ClassifierFacts.lowered_p.
Qed.

Lemma prefix_iff s1 : forall s2,
  String.prefix s1 s2 = true <-> exists r, s2 = (s1 ++ r)%string.
Proof.
  induction s1 as [|a s1 IH]; intros s2; simpl.
  - split; [intros _; now exists s2|intros _; now destruct s2].
  - destruct s2 as [|b s2].
    + split; [discriminate|]. intros [r Hr]. discriminate.
    + simpl. destruct (ascii_dec a b) as [->|Hne].
      * rewrite IH. split; intros [r Hr]; exists r; congruence.
      * split; [discriminate|]. intros [r Hr]. congruence.
Qed.

Lemma Contains_iff sub : forall s,
  Contains s sub = true <-> exists a b, s = (a ++ sub ++ b)%string.
Proof.
  induction s as [|c s IH].
  - change (Contains "" sub) with (String.prefix sub "" || false).
    rewrite orb_false_r, prefix_iff. split.
    + intros [r Hr]. exists "", r. exact Hr.
    + intros (a & b & H).
      destruct a as [|x a]; [exists b; exact H|simpl in H; discriminate H].
  - change (Contains (String c s) sub)
      with (String.prefix sub (String c s) || Contains s sub).
    rewrite orb_true_iff, prefix_iff, IH. split.
    + intros [[r Hr]|(a & b & H)].
      * exists "", r. exact Hr.
      * exists (String c a), b. simpl. now rewrite H.
    + intros (a & b & H). destruct a as [|x a].
      * left. exists b. exact H.
      * right. exists a, b. simpl in H. congruence.
Qed.

Lemma ToLower_app a b :
  ToLower (a ++ b) = (ToLower a ++ ToLower b)%string.
Proof. induction a as [|c a IH]; simpl; [reflexivity|]. now rewrite IH. Qed.

Lemma ToLower_app_inv x : forall s y,
  ToLower s = (x ++ y)%string ->
  exists a b, s = (a ++ b)%string /\ ToLower a = x /\ ToLower b = y.
Proof.
  induction x as [|c x IH]; intros s y H.
  - exists "", s. auto.
  - destruct s as [|d s]; [discriminate|]. simpl in H.
    injection H as Hc Hs. destruct (IH _ _ Hs) as (a & b & -> & Ha & Hb).
    exists (String d a), b. simpl. now rewrite Hc, Ha.
Qed.

Lemma mentions_isCompressedFile before word after :
  EqualFold word "completed" = true ->
  isCompressedFile (before ++ word ++ after) = true.
Proof.
  intros Hw. apply ToLower_completed in Hw.
  unfold isCompressedFile. apply Contains_iff.
  exists (ToLower before), (ToLower after).
  now rewrite !ToLower_app, Hw.
Qed.

End MarkerFacts.

(** X13.  [isCompressedFile] holds of a path exactly when the path has the
    word [completed] somewhere in it, in any mix of upper and lower case:
    in the name of a directory or in the name of the file alike. *)
Theorem isCompressedFile_iff_mentions filePath :
  isCompressedFile filePath = true <->
  exists before word after,
    filePath = (before ++ word ++ after)%string /\
    Strings.EqualFold word "completed" = true.
Proof.
  unfold isCompressedFile. rewrite MarkerFacts.Contains_iff. split.
  - intros (a & b & H).
    destruct (MarkerFacts.ToLower_app_inv _ _ _ H) as (before & rest & -> & _ & Hr).
    destruct (MarkerFacts.ToLower_app_inv _ _ _ Hr) as (word & after & -> & Hw & _).
    exists before, word, after. split; [reflexivity|].
    now apply MarkerFacts.ToLower_completed.
  - intros (before & word & after & -> & Hw).
    apply MarkerFacts.ToLower_completed in Hw.
    exists (Strings.ToLower before), (Strings.ToLower after).
    now rewrite !MarkerFacts.ToLower_app, Hw.
Qed.

(* ================================================================= *)
(** ** Where the paths of a job lead *)

Module PlaceFacts.

Import Filepath OS Vidcom.
Local Open Scope list_scope.

Lemma Split_dir path :
  fst (Split path) = "" \/
  exists d, fst (Split path) = (d ++ "/")%string.
Proof.
  induction path as [|c rest IH]; simpl; [now left|].
  destruct (Split rest) as [dir file]. simpl in IH.
  destruct (is_empty dir) eqn:Hd.
  - destruct (IsPathSeparator c) eqn:Hc; [|now left].
    right. exists "". simpl. apply Ascii.eqb_eq in Hc. now subst c.
  - right. destruct IH as [->|[d ->]]; [discriminate|].
    now exists (String c d).
Qed.

Lemma resolve_trailing d :
  is_empty d = false -> resolve (d ++ "/") = resolve d.
Proof.
  intros Hd. unfold resolve.
  assert (is_rooted (d ++ "/") = is_rooted d) as ->
    by (destruct d; [discriminate|reflexivity]).
  change (d ++ "/")%string with (d ++ String Separator "")%string.
  rewrite PathFacts.elements_app. unfold clean_elements.
  rewrite fold_left_app. reflexivity.
Qed.

Lemma resolve_name name :
  is_name name = true -> no_sep name = true -> resolve name = Some [name].
Proof.
  intros Hn Hs. unfold resolve.
  assert (is_rooted name = false) as ->.
  { destruct name as [|c r]; [reflexivity|]. simpl in *.
    apply andb_true_iff in Hs as [Hc _]. now apply negb_true_iff in Hc. }
  rewrite (PathFacts.elements_single _ Hs). unfold clean_elements. simpl.
  rewrite (PathFacts.clean_step_name _ _ _ Hn). simpl.
  now rewrite (PathFacts.is_name_not_dotdot _ Hn).
Qed.

Lemma lookup_app names : forall t n rest,
  lookup t names = inr n -> lookup t (names ++ rest) = lookup n rest.
Proof.
  induction names as [|s names IH]; intros t n rest H; simpl in *.
  - now injection H as ->.
  - destruct t as [size|w es]; [discriminate|].
    destruct (find s es); [|discriminate]. now apply IH.
Qed.

Lemma find_In k c es :
  NoDup (map fst es) -> In (k, c) es -> find k es = Some c.
Proof.
  induction es as [|[k' c'] es IH]; simpl; [tauto|].
  intros Hnd [Heq|Hin].
  - injection Heq as -> ->. now rewrite String.eqb_refl.
  - inversion Hnd as [|? ? Hnotin Hnd']; subst.
    destruct (String.eqb_spec k' k) as [->|Hne]; [|now apply IH].
    exfalso. apply Hnotin. change k with (fst (k, c)). now apply in_map.
Qed.

(** In a well-formed tree, the files the walk of [findVideoFiles] adds
    are files of the tree. *)
Lemma walk_visit_files t n :
  well_formed n ->
  forall path names files dirCount,
    is_empty path = false ->
    resolve path = Some names ->
    lookup t names = inr n ->
    exists new dirCount',
      walk visit path n (files, dirCount) = ((files ++ new, dirCount'), None) /\
      Forall (fun p => exists size,
                  Stat t p = inr {| IsDir := false; Size := Z.of_N size |})
             new.
Proof.
  induction n as [size|w es IH] using WalkFacts.node_nested_ind;
    intros Hwf path names files dc Hne Hr Hl.
  - simpl. destruct (isVideoFile path).
    + exists [path], dc. split; [reflexivity|]. constructor; [|constructor].
      exists size. unfold Stat, at_path. now rewrite Hr, Hl.
    + exists [], dc. rewrite app_nil_r. auto.
  - apply WalkFacts.well_formed_Dir in Hwf as [Hnd Hok].
    rewrite WalkFacts.walk_Dir. cbn -[Int64.add].
    rewrite Forall_forall in IH, Hok.
    assert (Hes : forall es', (forall e, In e es' -> In e es) ->
               forall files dc,
               exists new dc',
                 walk_entries visit path es' (files, dc)
                 = ((files ++ new, dc'), None) /\
                 Forall (fun p => exists size,
                             Stat t p = inr {| IsDir := false;
                                               Size := Z.of_N size |}) new).
    { clear files dc. induction es' as [|[k c] es' IHes]; intros Hin files dc.
      - exists [], dc. simpl. rewrite app_nil_r. auto.
      - assert (Hkc : In (k, c) es) by (apply Hin; now left).
        destruct (Hok _ Hkc) as (Hname & Hsep & Hwfc). simpl in *.
        assert (Hjoin : resolve (Join path k) = Some (names ++ [k]))
          by (rewrite ResolveFacts.resolve_Join, Hr; auto).
        assert (Hlook : lookup t (names ++ [k]) = inr c).
        { rewrite (lookup_app _ _ _ _ Hl). simpl.
          now rewrite (find_In _ _ _ Hnd Hkc). }
        assert (Hjne : is_empty (Join path k) = false).
        { apply ResolveFacts.Join_not_empty. now destruct k. }
        destruct (IH _ Hkc Hwfc (Join path k) (names ++ [k]) files dc
                     Hjne Hjoin Hlook) as (new1 & dc1 & Hw1 & Hv1).
        destruct (IHes (fun e He => Hin e (or_intror He)) (files ++ new1) dc1)
          as (new2 & dc2 & Hw2 & Hv2).
        exists (new1 ++ new2), dc2. simpl in Hw1 |- *.
        rewrite Hw1, Hw2, app_assoc.
        split; [reflexivity|now apply Forall_app]. }
    destruct (Hes es (fun e He => He) files (Int64.add dc 1))
      as (new & dc' & Hw & Hv).
    exists new, dc'. now rewrite Hw.
Qed.

(** The names the paths of a job stand for. *)
Lemma job_paths filePath dir :
  is_name (snd (Split filePath)) = true ->
  resolve (fst (Split filePath)) = Some dir ->
  resolve filePath = Some (dir ++ [snd (Split filePath)]) /\
  resolve (compressedFilePath filePath)
  = Some (dir ++ ["Completed"; snd (Split filePath)]).
Proof.
  intros Hname Hdir.
  pose proof (ResolveFacts.Split_file_no_sep filePath) as Hsep.
  pose proof (ClassifierMore.Split_app filePath) as Happ.
  unfold compressedFilePath, completedDir.
  set (name := snd (Split filePath)) in *.
  destruct (Split_dir filePath) as [Hd|[d Hd]]; rewrite Hd in *.
  - injection Hdir as <-. simpl in Happ. rewrite Happ at 1.
    split; [now apply resolve_name|].
    rewrite ResolveFacts.resolve_Join; auto.
  - destruct d as [|c d]; [discriminate|].
    rewrite resolve_trailing in Hdir by reflexivity. split.
    + rewrite Happ at 1. rewrite ClassifierMore.append_assoc.
      change ("/" ++ name)%string with (String Separator name).
      rewrite ResolveFacts.resolve_entry, Hdir; auto.
    + rewrite ResolveFacts.resolve_Join; auto;
        [|now apply ResolveFacts.Join_not_empty].
      rewrite ResolveFacts.resolve_Join; auto.
      rewrite resolve_trailing, Hdir by reflexivity.
      now rewrite <- app_assoc.
Qed.

End PlaceFacts.

(** X14.  The compressed file of an input file has the name of the input
    file and stands in the directory "Completed" of the directory of the
    input file. *)
Theorem output_is_beside_input filePath dir :
  Filepath.is_name (snd (Filepath.Split filePath)) = true ->
  resolve (fst (Filepath.Split filePath)) = Some dir ->
  resolve filePath = Some (dir ++ [snd (Filepath.Split filePath)]) /\
  resolve (compressedFilePath filePath)
  = Some (dir ++ ["Completed"; snd (Filepath.Split filePath)]).
Proof. apply PlaceFacts.job_paths. Qed.

(** X15.  In a well-formed tree, every path [findVideoFiles] returns for a
    directory is the path of a file of the tree. *)
Theorem listed_files_exist dirPath w names n :
  Filepath.is_empty dirPath = false ->
  resolve dirPath = Some names ->
  lookup (fs w) names = inr n ->
  well_formed n ->
  Forall (fun p => exists size,
              Stat (fs w) p = inr {| IsDir := false; Size := Z.of_N size |})
         (fst (snd (findVideoFiles dirPath w))).
Proof.
  intros Hne Hr Hl Hwf. unfold findVideoFiles, Walk, at_path.
  rewrite Hr, Hl.
  destruct (PlaceFacts.walk_visit_files (fs w) n Hwf dirPath names [] 0
                                        Hne Hr Hl)
    as (new & dc & -> & Hv).
  exact Hv.
Qed.

(* ================================================================= *)
(** ** Facts about the reading of numbers *)

Module StrconvFacts.

Import Strconv Vidcom.
Local Open Scope N_scope.

Lemma digit_bound c d : digit c = Some d -> d <= 9.
Proof.
  unfold digit.
  destruct ((48 <=? N_of_ascii c) && (N_of_ascii c <=? 57)) eqn:H;
    [|discriminate].
  apply andb_true_iff in H as [H1 H2].
  apply N.leb_le in H1, H2. intros [= <-]. lia.
Qed.

Lemma digit_no_sign c d :
  digit c = Some d -> Ascii.eqb c "+" || Ascii.eqb c "-" = false.
Proof.
  destruct c as [[] [] [] [] [] [] [] []]; intros H;
    vm_compute in H; try discriminate H; reflexivity.
Qed.

Lemma value_from_le s : forall n, n <= value_from n s.
Proof.
  induction s as [|c r IH]; intros n; simpl; [lia|].
  destruct (digit c) as [d|]; [|lia].
  specialize (IH (n * 10 + d)). lia.
Qed.

(** The loop of [ParseUint] on digits: the number they write, or a range
    error when that number does not fit in 64 bits. *)
Lemma parse_digits_value s : forall n,
  all_digits s = true -> n < 2 ^ 64 ->
  parse_digits s n =
  if value_from n s <? 2 ^ 64 then (value_from n s, None)
  else (maxUint64, Some ErrRange).
Proof.
  induction s as [|c r IH]; intros n Hall Hn;
    cbn [parse_digits all_digits value_from] in *.
  - apply N.ltb_lt in Hn. now rewrite Hn.
  - destruct (digit c) as [d|] eqn:Hd; [|discriminate].
    pose proof (digit_bound _ _ Hd) as Hd9.
    pose proof (value_from_le r (n * 10 + d)) as Hle.
    change (maxUint64 / 10 + 1) with 1844674407370955162.
    change (2 ^ 64) with 18446744073709551616 in *.
    destruct (1844674407370955162 <=? n) eqn:Hcut.
    + apply N.leb_le in Hcut.
      destruct (value_from (n * 10 + d) r <? 18446744073709551616) eqn:Hv;
        [apply N.ltb_lt in Hv; lia|reflexivity].
    + apply N.leb_gt in Hcut.
      rewrite (N.mod_small (n * 10)) by lia.
      destruct (N.lt_ge_cases (n * 10 + d) 18446744073709551616) as [Hfit|Hover].
      * rewrite (N.mod_small (n * 10 + d)) by lia.
        assert ((n * 10 + d <? n * 10) = false) as ->
          by (apply N.ltb_ge; lia).
        assert ((maxUint64 <? n * 10 + d) = false) as ->
          by (apply N.ltb_ge;
              change maxUint64 with 18446744073709551615; lia).
        cbn [orb]. now apply IH.
      * assert (Hmod : (n * 10 + d) mod 18446744073709551616
                       = n * 10 + d - 18446744073709551616)
          by (symmetry; apply N.mod_unique with (q := 1); lia).
        rewrite Hmod.
        assert ((n * 10 + d - 18446744073709551616 <? n * 10) = true) as ->
          by (apply N.ltb_lt; lia).
        cbn [orb].
        destruct (value_from (n * 10 + d) r <? 18446744073709551616) eqn:Hv;
          [apply N.ltb_lt in Hv; lia|reflexivity].
Qed.

Lemma parse_digits_rejects s : forall n,
  all_digits s = false -> snd (parse_digits s n) <> None.
Proof.
  induction s as [|c r IH]; intros n Hall; simpl in *; [discriminate|].
  destruct (digit c); [|simpl; discriminate].
  destruct (_ <=? n); [simpl; discriminate|].
  destruct (_ || _); [simpl; discriminate|]. now apply IH.
Qed.

Lemma ParseUint_value s :
  s <> EmptyString -> all_digits s = true ->
  ParseUint s =
  if value s <? 2 ^ 64 then (value s, None) else (maxUint64, Some ErrRange).
Proof.
  intros Hne Hall. unfold ParseUint, value.
  destruct s; [congruence|]. apply parse_digits_value; [assumption|].
  reflexivity.
Qed.

Lemma ParseUint_rejects s :
  s = EmptyString \/ all_digits s = false -> snd (ParseUint s) <> None.
Proof.
  intros [->|Hall]; [simpl; discriminate|].
  unfold ParseUint. destruct s; [discriminate|].
  now apply parse_digits_rejects.
Qed.

(** [ParseInt] once the sign is known. *)
Lemma ParseInt_signed s :
  s <> EmptyString ->
  ParseInt s =
  let neg := match s with String c _ => Ascii.eqb c "-" | _ => false end in
  let (un, err) := ParseUint (unsigned_part s) in
  match err with
  | Some ErrSyntax => (0%Z, Some ErrSyntax)
  | _ =>
      if negb neg && (2 ^ 63 <=? un)
      then (Z.of_N (2 ^ 63) - 1, Some ErrRange)%Z
      else if neg && (2 ^ 63 <? un)
      then (- Z.of_N (2 ^ 63), Some ErrRange)%Z
      else (if neg then Int64.wrap (- Int64.wrap (Z.of_N un))
            else Int64.wrap (Z.of_N un), None)
  end.
Proof. destruct s; [congruence|reflexivity]. Qed.

Lemma parse_digits_range s : forall n un,
  parse_digits s n = (un, Some ErrRange) -> un = maxUint64.
Proof.
  induction s as [|c r IH]; intros n un; cbn [parse_digits];
    [discriminate|].
  destruct (digit c); [|discriminate].
  destruct (_ <=? n); [congruence|].
  destruct (_ || _); [congruence|]. apply IH.
Qed.

Lemma ParseUint_range s un :
  ParseUint s = (un, Some ErrRange) -> un = maxUint64.
Proof.
  unfold ParseUint. destruct s; [discriminate|]. apply parse_digits_range.
Qed.

(** What [stringToInt64] makes of a sign and the number read after it. *)
Lemma stringToInt64_signed s :
  s <> EmptyString ->
  all_digits (unsigned_part s) = true ->
  unsigned_part s <> EmptyString ->
  stringToInt64 s =
  if match s with String c _ => Ascii.eqb c "-" | _ => false end
  then (if value (unsigned_part s) <=? 2 ^ 63
        then (- Z.of_N (value (unsigned_part s)))%Z else 0%Z)
  else (if value (unsigned_part s) <? 2 ^ 63
        then Z.of_N (value (unsigned_part s)) else 0%Z).
Proof.
  intros Hs Hall Hne. unfold stringToInt64.
  rewrite (ParseInt_signed _ Hs). cbv zeta.
  rewrite (ParseUint_value _ Hne Hall).
  set (v := value (unsigned_part s)).
  set (neg := match s with String c _ => Ascii.eqb c "-" | _ => false end).
  change (2 ^ 64) with 18446744073709551616.
  change (2 ^ 63) with 9223372036854775808.
  destruct (v <? 18446744073709551616) eqn:H64.
  - apply N.ltb_lt in H64.
    destruct neg; cbn [negb andb].
    + destruct (9223372036854775808 <? v) eqn:Hlt.
      * apply N.ltb_lt in Hlt.
        assert ((v <=? 9223372036854775808) = false) as ->
          by (apply N.leb_gt; lia). reflexivity.
      * apply N.ltb_ge in Hlt.
        assert ((v <=? 9223372036854775808) = true) as ->
          by (apply N.leb_le; lia).
        destruct (N.eq_dec v 9223372036854775808) as [->|Hneq];
          [reflexivity|].
        rewrite !JobFacts.Int64_wrap_in_range; [reflexivity| |];
          unfold Int64.in_range, Int64.min_int, Int64.max_int; try lia.
        rewrite JobFacts.Int64_wrap_in_range;
          unfold Int64.in_range, Int64.min_int, Int64.max_int; lia.
    + destruct (9223372036854775808 <=? v) eqn:Hle.
      * apply N.leb_le in Hle.
        assert ((v <? 9223372036854775808) = false) as ->
          by (apply N.ltb_ge; lia). reflexivity.
      * apply N.leb_gt in Hle.
        assert ((v <? 9223372036854775808) = true) as ->
          by (apply N.ltb_lt; lia).
        rewrite JobFacts.Int64_wrap_in_range; [reflexivity|].
        unfold Int64.in_range, Int64.min_int, Int64.max_int. lia.
  - apply N.ltb_ge in H64.
    assert ((v <=? 9223372036854775808) = false) as ->
      by (apply N.leb_gt; lia).
    assert ((v <? 9223372036854775808) = false) as ->
      by (apply N.ltb_ge; lia).
    destruct neg; reflexivity.
Qed.

End StrconvFacts.

(* ================================================================= *)
(** ** Properties of the reading of numbers *)

(** X16.  [stringToInt64] reads a string of decimal digits as the number
    it writes, with a [+] before it too, and as the opposite number with a
    [-] before it, leading zeros or not; a number outside [int64] gives
    0. *)
Theorem stringToInt64_reads_numerals digits :
  digits <> EmptyString ->
  Strconv.all_digits digits = true ->
  stringToInt64 digits
  = (if (Strconv.value digits <? 2 ^ 63)%N
     then Z.of_N (Strconv.value digits) else 0) /\
  stringToInt64 (String "+" digits)
  = (if (Strconv.value digits <? 2 ^ 63)%N
     then Z.of_N (Strconv.value digits) else 0) /\
  stringToInt64 (String "-" digits)
  = (if (Strconv.value digits <=? 2 ^ 63)%N
     then - Z.of_N (Strconv.value digits) else 0).
Proof.
  intros Hne Hall.
  assert (Hplain : Strconv.unsigned_part digits = digits
                   /\ match digits with
                      | String c _ => Ascii.eqb c "-"
                      | _ => false
                      end = false).
  { destruct digits as [|c r]; [congruence|]. simpl in Hall |- *.
    destruct (Strconv.digit c) as [d|] eqn:Hd; [|discriminate].
    pose proof (StrconvFacts.digit_no_sign _ _ Hd) as Hsign.
    rewrite Hsign. apply orb_false_iff in Hsign as [_ ->]. auto. }
  destruct Hplain as [Hu Hneg]. repeat split.
  - rewrite StrconvFacts.stringToInt64_signed; rewrite ?Hu; auto.
    now rewrite Hneg.
  - rewrite StrconvFacts.stringToInt64_signed; auto. discriminate.
  - rewrite StrconvFacts.stringToInt64_signed; auto. discriminate.
Qed.

(** X17.  Whatever is not a string of one or more decimal digits, with at
    most one sign before it, [stringToInt64] turns into 0: the empty
    string, a sign alone, blanks, letters, a second sign, an underscore. *)
Theorem stringToInt64_rejects str :
  Strconv.unsigned_part str = EmptyString \/
  Strconv.all_digits (Strconv.unsigned_part str) = false ->
  stringToInt64 str = 0.
Proof.
  intros H. unfold stringToInt64.
  destruct str as [|c r]; [reflexivity|].
  rewrite StrconvFacts.ParseInt_signed by discriminate. cbv zeta.
  pose proof (StrconvFacts.ParseUint_rejects _ H) as Herr.
  destruct (Strconv.ParseUint _) as [un [[]|]] eqn:Hp; simpl in Herr;
    [reflexivity| |congruence].
  apply StrconvFacts.ParseUint_range in Hp. subst un.
  destruct (Ascii.eqb c "-"); reflexivity.
Qed.

(* ================================================================= *)
(** ** Paths as they are written *)

Module WrittenFacts.

Import Filepath OS Vidcom.
Local Open Scope list_scope.

(** A relative path that stands for names is cleaned into these names,
    joined by separators. *)
Lemma Clean_resolve path names :
  resolve path = Some names -> Clean path = of_names names.
Proof.
  unfold resolve, Clean.
  pose proof (ResolveFacts.clean_elements_facts
                (is_rooted path) (elements path)
                (PathFacts.elements_no_sep path)) as Hf.
  destruct (is_rooted path); [discriminate|].
  unfold render. cbn [String.append].
  destruct (clean_elements false (elements path)) as [|e es];
    [now intros [= <-]|].
  destruct (is_dotdot e); [discriminate|]. intros [= <-].
  inversion Hf as [|? ? [_ Hne] _]; subst.
  destruct e as [|c e]; [discriminate|].
  unfold of_names. destruct es; reflexivity.
Qed.

Lemma concat_mentions x : forall l r,
  exists before after,
    String.concat "/" (l ++ x :: r) = (before ++ x ++ after)%string.
Proof.
  induction l as [|y l IH]; intros r.
  - exists "". destruct r as [|z r].
    + exists "". simpl. now rewrite ClassifierMore.append_nil.
    + exists ("/" ++ String.concat "/" (z :: r))%string. reflexivity.
  - destruct (IH r) as (before & after & H).
    exists (y ++ "/" ++ before)%string, after.
    change ((y :: l) ++ x :: r) with (y :: (l ++ x :: r)).
    destruct (l ++ x :: r) as [|z rest] eqn:Hl;
      [destruct l; discriminate|].
    change (String.concat "/" (y :: z :: rest))
      with (y ++ "/" ++ String.concat "/" (z :: rest))%string.
    rewrite H, !ClassifierMore.append_assoc. reflexivity.
Qed.


End WrittenFacts.

(** X18.  Written out, the compressed file of an input file below the
    working directory is the directory of the input file, then "Completed",
    then the name of the input file; and [isCompressedFile] holds of every
    such path. *)
Theorem output_path_is_marked filePath dir :
  Filepath.is_name (snd (Filepath.Split filePath)) = true ->
  resolve (fst (Filepath.Split filePath)) = Some dir ->
  compressedFilePath filePath
  = String.concat "/" (dir ++ ["Completed"; snd (Filepath.Split filePath)]) /\
  isCompressedFile (compressedFilePath filePath) = true.
Proof.
  intros Hname Hdir.
  destruct (PlaceFacts.job_paths _ _ Hname Hdir) as [_ Hout].
  assert (Hwritten : compressedFilePath filePath
            = String.concat "/"
                (dir ++ ["Completed"; snd (Filepath.Split filePath)])).
  { unfold compressedFilePath, Filepath.Join in *.
    assert (Filepath.is_empty (completedDir filePath) = false) as Hcd
      by (now apply ResolveFacts.Join_not_empty).
    unfold Filepath.Join in Hcd. fold (completedDir filePath) in *.
    assert (Filepath.is_empty (snd (Filepath.Split filePath)) = false) as Hn
      by (now destruct (snd (Filepath.Split filePath))).
    rewrite Hcd, Hn in *. rewrite ResolveFacts.resolve_Clean in Hout.
    rewrite (WrittenFacts.Clean_resolve _ _ Hout).
    unfold Filepath.of_names. now destruct dir. }
  split; [exact Hwritten|]. rewrite Hwritten.
  destruct (WrittenFacts.concat_mentions
              "Completed" dir [snd (Filepath.Split filePath)])
    as (before & after & ->).
  now apply MarkerFacts.mentions_isCompressedFile.
Qed.

(* ================================================================= *)
(** ** The search finds every video *)

Module FoundFacts.

Import Filepath OS Vidcom.
Local Open Scope list_scope.



End FoundFacts.


Section LaterJobs.

Variable exec : list string -> node -> process.

(** X20.  A compressed file that is there stays there through any batch,
    and the job of its input file is skipped after the batch as it would be
    before: it returns 0 and 0 and starts nothing. *)
Theorem existing_output_stays_skipped exec' files filePath w info :
  Filepath.is_name (snd (Filepath.Split filePath)) = true ->
  IsDir info = false ->
  Stat (fs w) (compressedFilePath filePath) = inr info ->
  Stat (fs (fst (processVideos exec files w))) (compressedFilePath filePath)
  = inr info /\
  snd (processVideo exec' filePath (fst (processVideos exec files w)))
  = (0, 0) /\
  outcome (fst (processVideo exec' filePath
                             (fst (processVideos exec files w))))
  = Some Skipped /\
  started (fst (processVideo exec' filePath
                             (fst (processVideos exec files w))))
  = started (fst (processVideos exec files w)).
Proof.
  intros Hname Hd Hthere.
  assert (Hstays : Stat (fs (fst (processVideos exec files w)))
                        (compressedFilePath filePath) = inr info)
    by (exact (BatchMore.accumulate_keeps_files exec files 0 0 w _ _ Hd Hthere)).
  split; [exact Hstays|].
  rewrite (JobMore.processVideo_skips exec' _ _ _ Hname Hstays).
  repeat split. cbn [fst]. apply JobFacts.outcome_statusLogger.
Qed.

(** X21.  Every job first says that it starts, on the console and in the
    log file; after that the log file gets every line the console gets, in
    the same order, and the lines of the encoder besides. *)
Theorem job_speaks_to_both filePath w :
  exists more,
    logfile (fst (processVideo exec filePath w))
    = logfile w ++ Status (InfoStarting filePath) :: more /\
    console (fst (processVideo exec filePath w))
    = console w ++ Status (InfoStarting filePath) :: filter is_status more.
Proof.
  assert (H : continues (prepared filePath w)
                        (fst (processVideo exec filePath w))).
  { rewrite JobFacts.processVideo_cases. cbv zeta.
    destruct (Stat _ (compressedFilePath filePath)).
    - destruct (Stat _ filePath).
      + apply JobMore.continues_statusLogger.
      + apply JobMore.continues_compress.
    - apply JobMore.continues_statusLogger. }
  destruct H as (more & Hl & Hc). exists more.
  rewrite Hl, Hc. simpl. rewrite <- !app_assoc. auto.
Qed.

End LaterJobs.

(* ================================================================= *)
(** ** The further properties at work *)

Ltac tree_is_well_formed :=
  simpl;
  repeat match goal with
         | |- _ /\ _ => split
         | |- NoDup _ => constructor
         | |- ~ In _ _ => simpl; intuition discriminate
         | |- True => exact I
         | |- _ = _ => reflexivity
         end.

(** X2 at work: an encoder whose stderr cannot be read to the end gives
    the sizes of one whose stderr can. *)
Lemma stderr_does_not_decide_witness :
  snd (processVideo (encoder (Some 20%N) None) "b.MOV" (boot one_video))
  = snd (processVideo (garbled (Some 20%N) None) "b.MOV" (boot one_video)).
Proof.
  refine (proj1 (stderr_does_not_decide
                   (encoder (Some 20%N) None) (garbled (Some 20%N) None)
                   "b.MOV" (boot one_video) _)).
  intros argv t. repeat split.
Defined.

(** X3 at work: 50 bytes kept at 20. *)
Lemma kept_output_remains_witness :
  Stat (fs (fst (processVideo (encoder (Some 20%N) None) "b.MOV"
                              (boot one_video))))
       "Completed/b.MOV" = inr (size_info 20).
Proof.
  refine (proj2 (kept_output_remains
                   (encoder (Some 20%N) None) "b.MOV" (boot one_video)
                   (size_info 50) (size_info 20) _ _)).
  - unfold reaches_output. repeat split; try reflexivity.
    eexists; reflexivity.
  - reflexivity.
Defined.



(** X7 at work: a directory that is not there. *)
Lemma findVideoFiles_missing_directory_witness :
  exists err,
    findVideoFiles "nowhere" (boot holidays)
    = (printError err (boot holidays), ([], -1)).
Proof.
  refine (findVideoFiles_missing_directory
            "nowhere" (boot holidays)
            (PathError "stat" "nowhere" ENOENT) _).
  reflexivity.
Defined.


(** X14 at work. *)
Lemma output_is_beside_input_witness :
  resolve "2023/beach.MP4" = Some ["2023"; "beach.MP4"] /\
  resolve (compressedFilePath "2023/beach.MP4")
  = Some ["2023"; "Completed"; "beach.MP4"].
Proof.
  refine (output_is_beside_input "2023/beach.MP4" ["2023"] _ _);
    reflexivity.
Defined.

(** X15 at work: the three videos of the tree. *)
Lemma listed_files_exist_witness :
  Forall (fun p => exists size,
              Stat holidays p = inr {| IsDir := false; Size := Z.of_N size |})
         ["2023/beach.MP4"; "2024/hike.mov"; "intro.mp4"].
Proof.
  refine (listed_files_exist "." (boot holidays) [] holidays _ _ _ _);
    try reflexivity.
  tree_is_well_formed.
Defined.

(** X16 at work. *)
Lemma stringToInt64_reads_numerals_witness :
  stringToInt64 "0042" = 42 /\ stringToInt64 "+0042" = 42 /\
  stringToInt64 "-0042" = -42.
Proof.
  refine (stringToInt64_reads_numerals "0042" _ _);
    [discriminate|reflexivity].
Defined.

(** X17 at work. *)
Lemma stringToInt64_rejects_witness : stringToInt64 "12a" = 0.
Proof.
  refine (stringToInt64_rejects "12a" _). right. reflexivity.
Defined.

(** X18 at work. *)
Lemma output_path_is_marked_witness :
  compressedFilePath "2023/beach.MP4" = "2023/Completed/beach.MP4" /\
  isCompressedFile (compressedFilePath "2023/beach.MP4") = true.
Proof.
  refine (output_path_is_marked "2023/beach.MP4" ["2023"] _ _);
    reflexivity.
Defined.


(** X20 at work: the output of an earlier run, and a batch on another
    file. *)
Lemma existing_output_stays_skipped_witness :
  snd (processVideo not_installed "a.mp4"
         (fst (processVideos (encoder (Some 30%N) None) ["Completed/a.mp4"]
                             (boot second_run)))) = (0, 0).
Proof.
  refine (proj1 (proj2 (existing_output_stays_skipped
                          (encoder (Some 30%N) None) not_installed
                          ["Completed/a.mp4"] "a.mp4" (boot second_run)
                          (size_info 60) _ _ _))); reflexivity.
Defined.
